(** * StreamCapture: the resilient frame-capture engine of src/stream_capture.py

    A shallow embedding of [StreamCapture] and a verification of the
    properties its specification states about the primary capture loop
    ([execute_capture]), the fallback loop ([capture_generic_frames]),
    quality selection ([select_quality_based_on_speed]) and teardown
    ([release_resources]).

    Modelling choices, all taken from the source:
    - The two async generators are one state machine.  Its control points
      are the places where a generator can be suspended (the [yield]s and
      the [asyncio.sleep] calls) plus the two loop heads and the return of
      [initialise_stream], so that every transition is a piece of
      straight-line code.
    - Everything the engine asks of the outside world (opening a capture,
      reading a frame, the clock, the speed test, streamlink) is answered
      by an [environment].  Each answer may depend on the whole history of
      the run so far, so any sequence of answers can be expressed.
    - A naive [datetime] is the count of microseconds from 1970-01-01
      00:00:00 on the local calendar to it, between [datetime_min] (year 1)
      and [datetime_max] (year 9999); a [timedelta] is a count of
      microseconds; [capture_interval] is an integer number of seconds.
      Arithmetic that leaves these ranges raises [OverflowError], as in
      Python.
    - Floats are the rational numbers they denote.  [total_seconds()] is
      the binary64 number nearest to the microseconds divided by 10**6, so
      the gate
      [(current_time - last_process_time).total_seconds() >= capture_interval]
      compares that number with the interval.  [timestamp()] converts a
      local clock reading to POSIX seconds through the time zone in force;
      it is an answer of the environment, and it is taken not to raise on
      a reading of the clock.
    - The measured download speed is a rational number of Mbps.
    - A streamlink stream is what reading its [url] attribute gives: a
      URL, or an exception for a stream type that has none.
    - [gc.collect()] and [cap.set(CAP_PROP_BUFFERSIZE, 1)] have no effect
      on the state that is modelled and leave no event. *)

From Stdlib Require Import ZArith QArith Lia.
From stdpp Require Import gmap strings list fin_maps.

Close Scope Q_scope.
Open Scope Z_scope.

(** ** Data *)

(** A [cv2.VideoCapture] object, named by its creation rank. *)
Definition handle := nat.

(** The payload of a frame ([np.ndarray] in the source); opaque here. *)
Definition frame := nat.

(** Which of the two loops performed a read or a yield. *)
Inductive loop := Primary | Fallback.

(** A streamlink [Stream], by what reading its [url] attribute gives: the
    URL, or [None] when the access raises (a stream that has no [url]
    attribute, such as a muxed stream). *)
Definition stream := option string.

(** The attributes of a [StreamCapture] instance. *)
Record engine := mk_engine {
  stream_url : string;
  cap : option handle;
  capture_interval : Z;
  successfully_captured : bool
}.

(** [StreamCapture.__init__]. *)
Definition init (url : string) (interval : Z) : engine :=
  {| stream_url := url; cap := None;
     capture_interval := interval; successfully_captured := false |}.

(** [update_capture_interval]. *)
Definition update_capture_interval (new_interval : Z) (e : engine) : engine :=
  {| stream_url := stream_url e; cap := cap e;
     capture_interval := new_interval;
     successfully_captured := successfully_captured e |}.

Definition set_cap (c : option handle) (e : engine) : engine :=
  {| stream_url := stream_url e; cap := c;
     capture_interval := capture_interval e;
     successfully_captured := successfully_captured e |}.

Definition mark_captured (e : engine) : engine :=
  {| stream_url := stream_url e; cap := cap e;
     capture_interval := capture_interval e;
     successfully_captured := true |}.

(** What the engine does to the outside world, most recent first in a
    trace. *)
Inductive event :=
| EvOpen (h : handle) (url : string) (opened : bool)
    (* self.cap = cv2.VideoCapture(url), and what isOpened() said *)
| EvRetryOpen (h : handle) (url : string)          (* self.cap.open(url) *)
| EvRelease (h : handle)                           (* self.cap.release() *)
| EvRead (who : loop) (h : handle) (ret : bool) (f : option frame)
| EvNow (t : Z)                                    (* datetime.now() *)
| EvSleep (ms : Z)                                 (* asyncio.sleep *)
| EvProbe (download_speed : option Q)              (* check_internet_speed *)
| EvResolve (streams : option (gmap string stream))(* streamlink.streams *)
| EvYield (who : loop) (f : frame) (current_time : Z) (timestamp : Q).
    (* yield frame, timestamp, where timestamp = current_time.timestamp() *)

(** The answers of the outside world.  [None] for the speed test and for
    streamlink stands for a raised exception.  [env_timestamp hist t] is
    what [t.timestamp()] returns for the local clock reading [t]: the POSIX
    time, in seconds, that the time zone in force gives it, as a float. *)
Record environment := mk_environment {
  env_isOpened : list event -> bool;
  env_read : list event -> bool * option frame;
  env_now : list event -> Z;
  env_timestamp : list event -> Z -> Q;
  env_speed : list event -> option Q;
  env_streams : list event -> option (gmap string stream)
}.

Record machine := mk_machine {
  self : engine;
  trace : list event
}.

(** ** Observations on traces *)

Definition count (p : event -> bool) (tr : list event) : nat :=
  length (List.filter p tr).

Definition is_open (e : event) : bool :=
  match e with EvOpen _ _ _ => true | _ => false end.

Definition is_release (e : event) : bool :=
  match e with EvRelease _ => true | _ => false end.

Definition is_probe (e : event) : bool :=
  match e with EvProbe _ => true | _ => false end.

Definition is_read (who : loop) (e : event) : bool :=
  match e, who with
  | EvRead Primary _ _ _, Primary => true
  | EvRead Fallback _ _ _, Fallback => true
  | _, _ => false
  end.

Definition is_now (e : event) : bool :=
  match e with EvNow _ => true | _ => false end.

Definition opens : list event -> nat := count is_open.
Definition releases : list event -> nat := count is_release.
Definition probes : list event -> nat := count is_probe.
Definition reads_of (who : loop) : list event -> nat := count (is_read who).

(** How often the clock has been read. *)
Definition clock_readings : list event -> nat := count is_now.

(** The yields of a trace, most recent first: which loop yielded, and the
    clock reading [current_time] for which it did. *)
Fixpoint yields (tr : list event) : list (loop * Z) :=
  match tr with
  | [] => []
  | EvYield who _ t _ :: tr' => (who, t) :: yields tr'
  | _ :: tr' => yields tr'
  end.

(** The timestamps handed to the consumer, most recent first. *)
Fixpoint stamps (tr : list event) : list (loop * Q) :=
  match tr with
  | [] => []
  | EvYield who _ _ timestamp :: tr' => (who, timestamp) :: stamps tr'
  | _ :: tr' => stamps tr'
  end.

Definition handle_eqb (h : handle) (e : event) : bool :=
  match e with EvRelease h' => Nat.eqb h h' | _ => false end.

(** The captures created and not yet released when the run has produced
    [tr].  [later] holds the events that follow the one under inspection. *)
Fixpoint open_handles_from (later : list event) (tr : list event) : list handle :=
  match tr with
  | [] => []
  | e :: tr' =>
      let rest := open_handles_from (e :: later) tr' in
      match e with
      | EvOpen h _ _ => if existsb (handle_eqb h) later then rest else h :: rest
      | _ => rest
      end
  end.

Definition open_handles (tr : list event) : list handle :=
  open_handles_from [] tr.

(** The recovery actions of the fallback loop, and everything they bring
    about: releasing or opening a capture, probing the bandwidth, resolving
    the tiers, backing off. *)
Definition is_recovery (e : event) : bool :=
  match e with
  | EvRelease _ | EvOpen _ _ _ | EvRetryOpen _ _ | EvProbe _ | EvResolve _
  | EvSleep 5000 => true
  | _ => false
  end.

Definition recoveries : list event -> nat := count is_recovery.

(** ** A state monad over the machine *)

Definition M (A : Type) : Type := machine -> A * machine.

Definition ret {A} (a : A) : M A := fun m => (a, m).

Definition bind {A B} (c : M A) (k : A -> M B) : M B :=
  fun m => let (a, m') := c m in k a m'.

Notation "'let*' x ':=' c 'in' k" := (bind c (fun x => k))
  (at level 10, x name, c at level 100, k at level 200).
Notation "'run*' c 'in' k" := (bind c (fun _ => k))
  (at level 10, c at level 100, k at level 200).

Definition gets {A} (f : engine -> A) : M A := fun m => (f (self m), m).

Definition emit (e : event) : M unit :=
  fun m => (tt, {| self := self m; trace := e :: trace m |}).

Definition modify (f : engine -> engine) : M unit :=
  fun m => (tt, {| self := f (self m); trace := trace m |}).

(** ** Dates and times *)

(** [datetime.min] and [datetime.max], in microseconds from 1970-01-01
    00:00:00: 0001-01-01 00:00:00 and 9999-12-31 23:59:59.999999. *)
Definition datetime_min : Z := -62135596800000000.
Definition datetime_max : Z := 253402300799999999.

(** [datetime.timedelta(seconds=seconds)], in microseconds.  A timedelta
    holds at most 999999999 days either way; beyond, the constructor
    raises [OverflowError] ([None]). *)
Definition timedelta_seconds (seconds : Z) : option Z :=
  if (-999999999 <=? seconds / 86400) && (seconds / 86400 <=? 999999999)
  then Some (seconds * 1000000) else None.

(** [t - delta] for a datetime [t] and a timedelta [delta]:
    [OverflowError] ([None]) when the result is not a datetime. *)
Definition datetime_sub (t delta : Z) : option Z :=
  if (datetime_min <=? t - delta) && (t - delta <=? datetime_max)
  then Some (t - delta) else None.

(** [t - datetime.timedelta(seconds=seconds)], lines 83-85. *)
Definition seconds_before (t seconds : Z) : option Z :=
  match timedelta_seconds seconds with
  | Some delta => datetime_sub t delta
  | None => None
  end.

(** The integer nearest to [a / b], halves to the even one ([0 < b]). *)
Definition round_half_even (a b : Z) : Z :=
  let q := a / b in
  let r := a mod b in
  if 2 * r <? b then q
  else if b <? 2 * r then q + 1
  else if Z.even q then q else q + 1.

(** The binary64 number nearest to [n / d], for positive [n] and [d]: the
    quotient lies in the binade of exponent [e = log2 n - log2 d - c]; its
    53-bit significand is the quotient scaled by [2^(52 - e)] and rounded,
    and the number is the significand scaled back.  (The quotients met
    here are far from the overflow and underflow thresholds.) *)
Definition nearest_binary64 (n d : Z) : Q :=
  let ln := Z.log2 n in
  let ld := Z.log2 d in
  let c := if 2 ^ ln * d <=? n * 2 ^ ld then 0 else 1 in
  let m := round_half_even (n * 2 ^ (52 + ld + c)) (d * 2 ^ ln) in
  Qmake (m * 2 ^ ln) (Z.to_pos (2 ^ (52 + ld + c))).

(** [timedelta.total_seconds()] of a timedelta of [us] microseconds:
    Python divides the microseconds by 10**6, and the quotient of two
    integers is the nearest float. *)
Definition total_seconds (us : Z) : Q :=
  match us with
  | 0 => 0%Q
  | Zpos _ => nearest_binary64 us 1000000
  | Zneg _ => Qopp (nearest_binary64 (- us) 1000000)
  end.

(** ** Quality selection *)

(** The candidate ladder of [select_quality_based_on_speed], by measured
    download speed in Mbps. *)
Definition preferred_qualities (download_speed : Q) : list string :=
  if negb (Qle_bool download_speed (10 # 1)) then
    ["best"; "1080p"; "720p"; "480p"; "360p"; "240p"; "worst"]%string
  else if negb (Qle_bool download_speed (5 # 1))
          && Qle_bool download_speed (10 # 1) then
    ["720p"; "480p"; "360p"; "240p"; "worst"]%string
  else
    ["480p"; "360p"; "240p"; "worst"]%string.

(** The loop [for quality in preferred_qualities: if quality in
    available_qualities: selected_stream = streams[quality] ...], over the
    dictionary returned by streamlink (label to stream).  The result is
    the label the loop stops at, with its stream. *)
Fixpoint first_available (preferred : list string)
    (streams : gmap string stream) : option (string * stream) :=
  match preferred with
  | [] => None
  | quality :: rest =>
      match streams !! quality with
      | Some selected_stream => Some (quality, selected_stream)
      | None => first_available rest streams
      end
  end.

(** The body of the [try] of [select_quality_based_on_speed], with its
    [except] clause: the URL of the selected stream; [None] when
    streamlink raised, when no candidate is available, or when reading
    [selected_stream.url] raised (every exception ends in the [except]
    clause, which returns [None]; no further candidate is tried). *)
Definition quality_for_speed (download_speed : Q)
    (streams : option (gmap string stream)) : option string :=
  match streams with
  | None => None
  | Some streams =>
      match first_available (preferred_qualities download_speed) streams with
      | Some (_, selected_stream) => selected_stream
      | None => None
      end
  end.

(** [if not stream_url]: a URL is unusable when it is [None] or empty. *)
Definition usable (stream_url : option string) : option string :=
  match stream_url with
  | Some EmptyString => None
  | other => other
  end.

(** ** The operations of the engine *)

Section Engine.

Variable env : environment.

(** [self.cap = cv2.VideoCapture(url)], then [self.cap.isOpened()]. *)
Definition video_capture (url : string) : M bool :=
  fun m =>
    let h := opens (trace m) in
    let opened := env_isOpened env (trace m) in
    (opened, {| self := set_cap (Some h) (self m);
                trace := EvOpen h url opened :: trace m |}).

(** [self.cap.read() if self.cap is not None else (False, None)]. *)
Definition read (who : loop) : M (bool * option frame) :=
  fun m =>
    match cap (self m) with
    | Some h =>
        let r := env_read env (trace m) in
        (r, {| self := self m; trace := EvRead who h (fst r) (snd r) :: trace m |})
    | None => ((false, None), m)
    end.

(** [datetime.datetime.now()]. *)
Definition now : M Z :=
  fun m =>
    let t := env_now env (trace m) in
    (t, {| self := self m; trace := EvNow t :: trace m |}).

(** [t.timestamp()]. *)
Definition timestamp (t : Z) : M Q :=
  fun m => (env_timestamp env (trace m) t, m).

Definition sleep (ms : Z) : M unit := emit (EvSleep ms).

(** [release_resources]: the capture is released and forgotten when there
    is one.  ([if self.cap:] tests for [None]: a [VideoCapture] object
    defines no truth value of its own.) *)
Definition release_resources : M unit :=
  fun m =>
    match cap (self m) with
    | Some h => (tt, {| self := set_cap None (self m);
                        trace := EvRelease h :: trace m |})
    | None => (tt, m)
    end.

(** [check_internet_speed]: the download speed, or [None] when the speed
    test raises. *)
Definition check_internet_speed : M (option Q) :=
  fun m =>
    let s := env_speed env (trace m) in
    (s, {| self := self m; trace := EvProbe s :: trace m |}).

Definition streamlink_streams : M (option (gmap string stream)) :=
  fun m =>
    let s := env_streams env (trace m) in
    (s, {| self := self m; trace := EvResolve s :: trace m |}).

(** [select_quality_based_on_speed].  The speed test runs before the
    [try], so its exception is not caught: the outer [None] stands for an
    exception that leaves the method; [Some r] is the returned value. *)
Definition select_quality_based_on_speed : M (option (option string)) :=
  let* speed := check_internet_speed in
  match speed with
  | None => ret None
  | Some download_speed =>
      let* streams := streamlink_streams in
      ret (Some (quality_for_speed download_speed streams))
  end.

End Engine.

(** ** The generators as a state machine *)

(** The local variables of a capture loop. *)
Record locals := mk_locals {
  last_process_time : Z;
  fail_count : nat
}.

(** [fail_count += 1]. *)
Definition failed (l : locals) : locals :=
  {| last_process_time := last_process_time l; fail_count := S (fail_count l) |}.

(** [fail_count = 0]. *)
Definition succeeded (l : locals) : locals :=
  {| last_process_time := last_process_time l; fail_count := 0 |}.

(** The five calls of [initialise_stream], by what follows them. *)
Inductive init_site :=
| AtStart                       (* line 82: execute_capture begins *)
| AtLoopHead (l : locals)       (* line 90: no capture at the loop head *)
| AtReconnect (l : locals)      (* line 103: after a failed primary read *)
| AtFallbackStart               (* line 209: capture_generic_frames begins *)
| AtReresolve (l : locals).     (* line 241: after a re-resolution *)

(** The exceptions that leave the generator. *)
Inductive exn :=
| OverflowError       (* lines 83-85: a date or a timedelta out of range *)
| AttributeError      (* line 62: self.cap is None *)
| SpeedTestError.     (* line 161: whatever check_internet_speed raised *)

Inductive control :=
| Created                               (* the generator has not run yet *)
| InitSleep (url : string) (k : init_site)
    (* suspended in initialise_stream at asyncio.sleep(5) *)
| InitDone (k : init_site)              (* initialise_stream has returned *)
| PrimaryHead (l : locals)              (* line 88 *)
| PrimaryYield (l : locals)             (* suspended at the yield, line 128 *)
| PrimaryIdle (l : locals)              (* suspended at the sleep, line 134 *)
| FallbackHead (l : locals)             (* line 214 *)
| FallbackBackoff (l : locals)          (* suspended at the sleep, line 232 *)
| FallbackYield (l : locals)            (* suspended at the yield, line 257 *)
| FallbackIdle (l : locals)             (* suspended at the sleep, line 263 *)
| Finished                              (* the generator returned *)
| Raised (e : exn)                      (* an exception left the generator *)
| Closed.                               (* the consumer cancelled it *)

Record generator := mk_generator {
  ctrl : control;
  mach : machine
}.

(** [stream_capture = StreamCapture(url, interval)] followed by
    [stream_capture.execute_capture()]. *)
Definition create (url : string) (interval : Z) : generator :=
  {| ctrl := Created; mach := {| self := init url interval; trace := [] |} |}.

Section Run.

Variable env : environment.

(** [initialise_stream] up to its suspension point. *)
Definition initialise_stream (url : string) (k : init_site) : M control :=
  let* opened := video_capture env url in
  if opened then ret (InitDone k)
  else run* sleep 5000 in ret (InitSleep url k).

(** [initialise_stream] after the sleep: [self.cap.open(stream_url)]. *)
Definition initialise_stream_resume (url : string) (k : init_site) : M control :=
  let* c := gets cap in
  match c with
  | Some h => run* emit (EvRetryOpen h url) in ret (InitDone k)
  | None => ret (Raised AttributeError)
  end.

(** The interval gate, lines 121-134 and 251-263: the frame is yielded
    when the interval has elapsed since [last_process_time], dropped
    otherwise. *)
Definition gate (who : loop) (f : frame) (l : locals)
    (yielded idle : locals -> control) : M control :=
  let* current_time := now env in
  let elapsed_time := total_seconds (current_time - last_process_time l) in
  let* interval := gets capture_interval in
  if Qle_bool (inject_Z interval) elapsed_time then
    let* stamp := timestamp env current_time in
    run* emit (EvYield who f current_time stamp) in
    ret (yielded {| last_process_time := current_time; fail_count := 0 |})
  else
    run* sleep 10 in ret (idle (succeeded l)).

(** Lines 92-134: one iteration of the loop of [execute_capture], from the
    read on. *)
Definition primary_iteration (l : locals) : M control :=
  let* r := read env Primary in
  match r with
  | (true, Some f) =>
      run* modify mark_captured in
      gate Primary f l PrimaryYield PrimaryIdle
  | _ =>
      run* release_resources in
      let* url := gets stream_url in
      initialise_stream url (AtReconnect (failed l))
  end.

(** Lines 202-209: the beginning of [capture_generic_frames]. *)
Definition capture_generic_frames_start : M control :=
  let* selected := select_quality_based_on_speed env in
  match selected with
  | None => ret (Raised SpeedTestError)
  | Some stream_url =>
      match usable stream_url with
      | None => ret Finished
      | Some url => initialise_stream url AtFallbackStart
      end
  end.

(** Lines 216-263: one iteration of the loop of [capture_generic_frames]. *)
Definition fallback_iteration (l : locals) : M control :=
  let* r := read env Fallback in
  match r with
  | (true, Some f) =>
      run* modify mark_captured in
      gate Fallback f l FallbackYield FallbackIdle
  | _ =>
      let* captured := gets successfully_captured in
      if (5 <=? fail_count (failed l))%nat && negb captured then
        run* release_resources in
        run* sleep 5000 in
        ret (FallbackBackoff (failed l))
      else ret (FallbackHead (failed l))
  end.

(** Lines 233-243: the re-resolution after the back-off sleep. *)
Definition fallback_reresolve (l : locals) : M control :=
  let* selected := select_quality_based_on_speed env in
  match selected with
  | None => ret (Raised SpeedTestError)
  | Some stream_url =>
      match usable stream_url with
      | None => ret (FallbackHead l)
      | Some url => initialise_stream url (AtReresolve l)
      end
  end.

(** What the generator does from a control point to the next one. *)
Definition resume (c : control) : M control :=
  match c with
  | Created =>
      let* url := gets stream_url in initialise_stream url AtStart
  | InitSleep url k => initialise_stream_resume url k
  | InitDone AtStart =>
      let* t := now env in
      let* interval := gets capture_interval in
      match seconds_before t interval with
      | Some last => ret (PrimaryHead {| last_process_time := last;
                                         fail_count := 0 |})
      | None => ret (Raised OverflowError)
      end
  | InitDone (AtLoopHead l) => primary_iteration l
  | InitDone (AtReconnect l) =>
      let* captured := gets successfully_captured in
      if (5 <=? fail_count l)%nat && negb captured
      then capture_generic_frames_start
      else ret (PrimaryHead l)
  | InitDone AtFallbackStart =>
      let* t := now env in
      ret (FallbackHead {| last_process_time := t; fail_count := 0 |})
  | InitDone (AtReresolve l) => ret (FallbackHead (succeeded l))
  | PrimaryHead l =>
      let* c := gets cap in
      match c with
      | None =>
          let* url := gets stream_url in initialise_stream url (AtLoopHead l)
      | Some _ => primary_iteration l
      end
  | PrimaryYield l => run* sleep 10 in ret (PrimaryIdle l)
  | PrimaryIdle l => ret (PrimaryHead l)
  | FallbackHead l => fallback_iteration l
  | FallbackBackoff l => fallback_reresolve l
  | FallbackYield l => run* sleep 10 in ret (FallbackIdle l)
  | FallbackIdle l => ret (FallbackHead l)
  | Finished => ret Finished
  | Raised e => ret (Raised e)
  | Closed => ret Closed
  end.

Definition step (g : generator) : generator :=
  let (c, m) := resume (ctrl g) (mach g) in {| ctrl := c; mach := m |}.

Fixpoint run (n : nat) (g : generator) : generator :=
  match n with
  | O => g
  | S n' => run n' (step g)
  end.

End Run.

(** The control points at which the generator is suspended, and where a
    cancellation of the consumer can therefore reach it. *)
Definition suspended (c : control) : bool :=
  match c with
  | Created | InitSleep _ _ | PrimaryYield _ | PrimaryIdle _
  | FallbackBackoff _ | FallbackYield _ | FallbackIdle _ => true
  | _ => false
  end.

(** Cancellation: the exception thrown into the generator at its
    suspension point meets no [try] in [execute_capture],
    [capture_generic_frames] or [initialise_stream], so it leaves the
    generator at once.  The release at line 136 follows [while True] and is
    never reached. *)
Definition cancel (g : generator) : generator :=
  if suspended (ctrl g) then {| ctrl := Closed; mach := mach g |} else g.

(** The control points of [execute_capture] itself. *)
Definition in_primary (c : control) : bool :=
  match c with
  | Created
  | InitSleep _ AtStart | InitSleep _ (AtLoopHead _) | InitSleep _ (AtReconnect _)
  | InitDone AtStart | InitDone (AtLoopHead _) | InitDone (AtReconnect _)
  | PrimaryHead _ | PrimaryYield _ | PrimaryIdle _ => true
  | _ => false
  end.

(** The control points of [capture_generic_frames]. *)
Definition in_fallback (c : control) : bool :=
  match c with
  | InitSleep _ AtFallbackStart | InitSleep _ (AtReresolve _)
  | InitDone AtFallbackStart | InitDone (AtReresolve _)
  | FallbackHead _ | FallbackBackoff _ | FallbackYield _ | FallbackIdle _ => true
  | _ => false
  end.

(** The control is in the body of the fallback loop. *)
Definition in_fallback_loop (c : control) : bool :=
  match c with
  | FallbackHead _ | FallbackYield _ | FallbackIdle _ => true
  | _ => false
  end.

(** A generator that has ended stays as it is. *)
Definition ended (c : control) : bool :=
  match c with Finished | Raised _ | Closed => true | _ => false end.

(** ** Concrete environments *)

Module Scenario.

(** The primary stream never delivers: every capture opens, the first five
    reads fail, every later read returns frame 7.  The clock advances by
    one second per look.  The speed test measures 7 Mbps and streamlink
    offers three tiers. *)
Definition tiers : gmap string stream :=
  <["480p" := Some "http://cdn/480"]>
    (<["360p" := Some "http://cdn/360"]>
       (<["worst" := Some "http://cdn/worst"]> ∅)).

(** The clock advances by one second per look. *)
Definition clock (hist : list event) : Z :=
  1000000 * Z.of_nat (clock_readings hist).

(** [timestamp()] where local time is UTC. *)
Definition utc (hist : list event) (t : Z) : Q := Qred (total_seconds t).

Definition dead_primary : environment :=
  {| env_isOpened := fun _ => true;
     env_read := fun hist =>
       if (reads_of Primary hist <? 5)%nat then (false, None) else (true, Some 7%nat);
     env_now := clock;
     env_timestamp := utc;
     env_speed := fun _ => Some (7 # 1)%Q;
     env_streams := fun _ => Some tiers |}.

(** A healthy primary stream: every read returns frame 7. *)
Definition healthy : environment :=
  {| env_isOpened := fun _ => true;
     env_read := fun _ => (true, Some 7%nat);
     env_now := clock;
     env_timestamp := utc;
     env_speed := fun _ => Some (7 # 1)%Q;
     env_streams := fun _ => Some tiers |}.

(** Nothing ever delivers and streamlink offers only a tier that the
    ladder for 3 Mbps does not contain. *)
Definition unresolvable : environment :=
  {| env_isOpened := fun _ => true;
     env_read := fun _ => (false, None);
     env_now := clock;
     env_timestamp := utc;
     env_speed := fun _ => Some (3 # 1)%Q;
     env_streams := fun _ => Some (<["1080p" := Some "http://cdn/1080"]> ∅) |}.

(** The primary stream delivers one frame and then fails for ever. *)
Definition one_frame : environment :=
  {| env_isOpened := fun _ => true;
     env_read := fun hist =>
       if (reads_of Primary hist <? 1)%nat then (true, Some 7%nat) else (false, None);
     env_now := clock;
     env_timestamp := utc;
     env_speed := fun _ => Some (7 # 1)%Q;
     env_streams := fun _ => Some tiers |}.

(** The primary stream never delivers; the fallback stream delivers one
    frame and then fails for ever. *)
Definition one_fallback_frame : environment :=
  {| env_isOpened := fun _ => true;
     env_read := fun hist =>
       if (reads_of Fallback hist =? 0)%nat && (5 <=? reads_of Primary hist)%nat
       then (true, Some 7%nat) else (false, None);
     env_now := clock;
     env_timestamp := utc;
     env_speed := fun _ => Some (7 # 1)%Q;
     env_streams := fun _ => Some tiers |}.

(** The night of 2024-03-31 in the time zone Europe/Berlin: at 02:00:00
    local time the clocks go to 03:00:00.  [timestamp()] takes one hour off
    a local time before the change and two hours off one after it. *)
Definition berlin (hist : list event) (t : Z) : Q :=
  if t <? 1711850400000000
  then Qred (total_seconds (t - 3600000000))
  else Qred (total_seconds (t - 7200000000)).

(** A healthy stream read that night: the generator starts and reads its
    first frame at 01:59:57 local time, and reads its second frame at
    03:00:03 local time, six seconds later. *)
Definition spring_forward : environment :=
  {| env_isOpened := fun _ => true;
     env_read := fun _ => (true, Some 7%nat);
     env_now := fun hist =>
       if (clock_readings hist <? 2)%nat
       then 1711850397000000 else 1711854003000000;
     env_timestamp := berlin;
     env_speed := fun _ => Some (7 # 1)%Q;
     env_streams := fun _ => Some tiers |}.

(** Two offers with the same labels: in the second the 720p stream is one
    that has no [url] attribute. *)
Definition with_720p : gmap string stream :=
  <["720p" := Some "http://cdn/720"]> tiers.

Definition with_muxed_720p : gmap string stream :=
  <["720p" := None]> tiers.

(** The speed test measures 7 Mbps and streamlink offers [offer]. *)
Definition offering (offer : gmap string stream) : environment :=
  {| env_isOpened := fun _ => true;
     env_read := fun _ => (false, None);
     env_now := clock;
     env_timestamp := utc;
     env_speed := fun _ => Some (7 # 1)%Q;
     env_streams := fun _ => Some offer |}.

End Scenario.

(** ** The vocabulary of the properties *)

(** A read delivered a frame: [ret] is true and [frame] is not [None]. *)
Definition read_ok (r : bool * option frame) : bool :=
  match r with
  | (true, Some _) => true
  | _ => false
  end.

(** Successive yields of one loop are related by [R] ([ys] lists the
    yields most recent first); a yield of one loop and the next yield of
    the other are not constrained. *)
Fixpoint successive {A : Type} (R : A -> A -> Prop) (ys : list (loop * A)) : Prop :=
  match ys with
  | [] => True
  | (w2, t2) :: rest =>
      match rest with
      | (w1, t1) :: _ => w1 = w2 -> R t1 t2
      | [] => True
      end /\ successive R rest
  end.

(** The test of the gate on the clock readings [t1] and [t2]:
    [(t2 - t1).total_seconds() >= interval]. *)
Definition elapsed (interval t1 t2 : Z) : Prop :=
  Qle_bool (inject_Z interval) (total_seconds (t2 - t1)) = true.

(** [t2] is at least [interval] seconds after [t1], to the microsecond. *)
Definition apart (interval t1 t2 : Z) : Prop :=
  interval * 1000000 <= t2 - t1.

(** The timestamp [s2] is at least [interval] seconds after [s1]. *)
Definition stamps_apart (interval : Z) (s1 s2 : Q) : Prop :=
  (inject_Z interval <= s2 - s1)%Q.

(** The clock readings of successive yields of one loop pass the test of
    the gate. *)
Definition spaced (interval : Z) (ys : list (loop * Z)) : Prop :=
  successive (elapsed interval) ys.

(** Every timestamp handed out is [timestamp()] of the clock reading of
    its yield. *)
Fixpoint stamped (env : environment) (tr : list event) : Prop :=
  match tr with
  | [] => True
  | EvYield _ _ t stamp :: rest =>
      stamp = env_timestamp env rest t /\ stamped env rest
  | _ :: rest => stamped env rest
  end.

Definition all_primary (ys : list (loop * Z)) : Prop :=
  Forall (fun y => fst y = Primary) ys.

Definition all_fallback (ys : list (loop * Z)) : Prop :=
  Forall (fun y => fst y = Fallback) ys.

(** The most recent yield, if there is one, was made at [t]. *)
Definition latest_at (t : Z) (ys : list (loop * Z)) : Prop :=
  match ys with
  | (_, t') :: _ => t' = t
  | [] => True
  end.

(** The most recent yield, if it is one of the fallback loop, was made
    at [t]. *)
Definition latest_fallback_at (t : Z) (ys : list (loop * Z)) : Prop :=
  match ys with
  | (Fallback, t') :: _ => t' = t
  | _ => True
  end.

(** How [last_process_time] relates to the frames yielded so far. *)
Definition linked (c : control) (ys : list (loop * Z)) : Prop :=
  match c with
  | Created | InitSleep _ AtStart | InitDone AtStart => ys = []
  | InitSleep _ (AtLoopHead l) | InitSleep _ (AtReconnect l)
  | InitDone (AtLoopHead l) | InitDone (AtReconnect l)
  | PrimaryHead l | PrimaryYield l | PrimaryIdle l =>
      all_primary ys /\ latest_at (last_process_time l) ys
  | InitSleep _ AtFallbackStart | InitDone AtFallbackStart => all_primary ys
  | InitSleep _ (AtReresolve l) | InitDone (AtReresolve l)
  | FallbackHead l | FallbackBackoff l | FallbackYield l | FallbackIdle l =>
      latest_fallback_at (last_process_time l) ys
  | Finished | Raised _ | Closed => True
  end.

Definition gated (interval : Z) (g : generator) : Prop :=
  capture_interval (self (mach g)) = interval /\
  spaced interval (yields (trace (mach g))) /\
  linked (ctrl g) (yields (trace (mach g))).

(** [P] holds somewhere along the run of [g]. *)
Definition reaches (env : environment) (g : generator) (P : generator -> Prop) : Prop :=
  exists n, P (run env n g).

(** The primary loop is at its head after [k] reads, all of them failed,
    and holds a capture. *)
Definition armed (k : nat) (g : generator) : Prop :=
  exists l, ctrl g = PrimaryHead l /\ fail_count l = k /\
    successfully_captured (self (mach g)) = false /\
    cap (self (mach g)) <> None /\
    reads_of Primary (trace (mach g)) = k /\
    yields (trace (mach g)) = [] /\
    probes (trace (mach g)) = 0%nat.

(** [capture_generic_frames] has just been entered, after [k] primary
    reads and before any frame. *)
Definition handed_off (k : nat) (g : generator) : Prop :=
  in_primary (ctrl g) = false /\
  reads_of Primary (trace (mach g)) = k /\
  probes (trace (mach g)) = 1%nat /\
  yields (trace (mach g)) = [].

(** The generator is outside [execute_capture]'s own loop after [k]
    primary reads, and every frame yielded so far is a fallback frame. *)
Definition off (k : nat) (g : generator) : Prop :=
  in_primary (ctrl g) = false /\
  reads_of Primary (trace (mach g)) = k /\
  all_fallback (yields (trace (mach g))).

(** [initialise_stream] sleeps only after it has stored a capture. *)
Definition well_formed (g : generator) : Prop :=
  match ctrl g with
  | InitSleep _ _ => cap (self (mach g)) <> None
  | _ => True
  end.

(** The control points of [execute_capture] after line 85: the loop has
    been entered. *)
Definition in_primary_loop (c : control) : bool :=
  match c with
  | InitSleep _ (AtLoopHead _) | InitSleep _ (AtReconnect _)
  | InitDone (AtLoopHead _) | InitDone (AtReconnect _)
  | PrimaryHead _ | PrimaryYield _ | PrimaryIdle _ => true
  | _ => false
  end.

(** Nothing has been read before the primary loop is entered. *)
Definition unread (g : generator) : Prop :=
  in_primary (ctrl g) = true -> in_primary_loop (ctrl g) = false ->
  successfully_captured (self (mach g)) = false.

(** The primary loop is running for [url], has delivered a frame once, and
    the bandwidth probe has run [p] times. *)
Definition proven (url : string) (p : nat) (g : generator) : Prop :=
  well_formed g /\
  in_primary_loop (ctrl g) = true /\
  successfully_captured (self (mach g)) = true /\
  stream_url (self (mach g)) = url /\
  probes (trace (mach g)) = p.

(** The fallback loop runs with [successfully_captured] set, capture [cp],
    and [k] recovery events behind it. *)
Definition settled (cp : option handle) (k : nat) (g : generator) : Prop :=
  in_fallback_loop (ctrl g) = true /\
  successfully_captured (self (mach g)) = true /\
  cap (self (mach g)) = cp /\
  recoveries (trace (mach g)) = k.

(** Under persistent failure the loop only counts: [n] failed iterations
    after the trace was [tr0]. *)
Definition spinning (l : locals) (n : nat) (tr0 : list event)
    (g : generator) : Prop :=
  ctrl g = FallbackHead {| last_process_time := last_process_time l;
                           fail_count := fail_count l + n |} /\
  successfully_captured (self (mach g)) = true /\
  yields (trace (mach g)) = yields tr0 /\
  exists evs, trace (mach g) = evs ++ tr0.

(** In [execute_capture]'s own loop every capture but the current one has
    been released; a generator that has not run holds none. *)
Definition balanced (g : generator) : Prop :=
  (ctrl g = Created -> cap (self (mach g)) = None) /\
  (in_primary (ctrl g) = true ->
   opens (trace (mach g))
   = (releases (trace (mach g))
      + match cap (self (mach g)) with Some _ => 1 | None => 0 end)%nat).

(** ** More observations and invariants of the capture loops *)

(** A read of loop [who] that delivered a frame. *)
Definition is_delivery (who : loop) (e : event) : bool :=
  match e, who with
  | EvRead Primary _ true (Some _), Primary => true
  | EvRead Fallback _ true (Some _), Fallback => true
  | _, _ => false
  end.

Definition deliveries (who : loop) : list event -> nat := count (is_delivery who).

(** [fail_count] as the control point of the primary loop holds it. *)
Definition primary_fail_count (c : control) : nat :=
  match c with
  | InitSleep _ (AtLoopHead l) | InitSleep _ (AtReconnect l)
  | InitDone (AtLoopHead l) | InitDone (AtReconnect l)
  | PrimaryHead l | PrimaryYield l | PrimaryIdle l => fail_count l
  | _ => 0%nat
  end.

(** The hand-off test of line 105 is still to come for the failure just
    counted. *)
Definition at_reconnect (c : control) : bool :=
  match c with
  | InitSleep _ (AtReconnect _) | InitDone (AtReconnect _) => true
  | _ => false
  end.

(** Once started, [execute_capture]'s own loop holds a capture at every
    control point. *)
Definition holding (g : generator) : Prop :=
  in_primary (ctrl g) = true -> ctrl g <> Created ->
  cap (self (mach g)) <> None.

(** The generator ended at lines 83-85: the last thing it did was to read
    the clock, and the interval cannot be taken off that reading. *)
Definition overflowed (g : generator) : Prop :=
  ctrl g = Raised OverflowError /\
  exists t, hd_error (trace (mach g)) = Some (EvNow t) /\
            seconds_before t (capture_interval (self (mach g))) = None.

(** The book-keeping of the primary loop: until a read delivers, every
    read is a counted failure; outside the primary loop either five reads
    were made and none delivered, or the generator ended at lines 83-85
    before any read. *)
Definition tallied (g : generator) : Prop :=
  holding g /\ unread g /\
  if in_primary (ctrl g) then
    successfully_captured (self (mach g)) = true \/
    (successfully_captured (self (mach g)) = false /\
     deliveries Primary (trace (mach g)) = 0%nat /\
     reads_of Primary (trace (mach g)) = primary_fail_count (ctrl g) /\
     (primary_fail_count (ctrl g) < (if at_reconnect (ctrl g) then 6 else 5))%nat)
  else
    (reads_of Primary (trace (mach g)) = 5%nat /\
     deliveries Primary (trace (mach g)) = 0%nat /\
     ctrl g <> Raised OverflowError) \/
    (overflowed g /\ reads_of Primary (trace (mach g)) = 0%nat).

(** [successfully_captured] records that some read, of either loop, has
    delivered a frame. *)
Definition flagged (g : generator) : Prop :=
  successfully_captured (self (mach g)) = true <->
  (0 < deliveries Primary (trace (mach g)) + deliveries Fallback (trace (mach g)))%nat.

(** Every yield hands out the frame of the read just made by the same
    loop, for the clock reading taken after that read. *)
Fixpoint justified (tr : list event) : Prop :=
  match tr with
  | [] => True
  | EvYield who f t _ :: rest =>
      (exists h rest', rest = EvNow t :: EvRead who h true (Some f) :: rest') /\
      justified rest
  | _ :: rest => justified rest
  end.

Definition sourced (env : environment) (g : generator) : Prop :=
  justified (trace (mach g)) /\
  stamped env (trace (mach g)) /\
  (length (yields (trace (mach g)))
   <= deliveries Primary (trace (mach g)) + deliveries Fallback (trace (mach g)))%nat.

(** The re-initialisation at the loop head (lines 89-90) is under way. *)
Definition at_loop_head_init (c : control) : bool :=
  match c with
  | InitSleep _ (AtLoopHead _) | InitDone (AtLoopHead _) => true
  | _ => false
  end.

(** An exception has left the generator only at lines 83-85, or if the
    last thing it did was a speed test that raised. *)
Definition raised_where (g : generator) : Prop :=
  forall e, ctrl g = Raised e ->
    (e = OverflowError /\ overflowed g) \/
    (e = SpeedTestError /\ hd_error (trace (mach g)) = Some (EvProbe None)).

(** ** The captures of a run *)

(** Capture [h] has been released in [tr]. *)
Definition released (h : handle) (tr : list event) : bool :=
  existsb (handle_eqb h) tr.

(** Every read, re-open and release acts on a capture that was created
    before and not released since; captures are numbered in the order of
    their creation. *)
Fixpoint safe (tr : list event) : Prop :=
  match tr with
  | [] => True
  | e :: rest =>
      match e with
      | EvOpen h _ _ => h = opens rest
      | EvRead _ h _ _ | EvRetryOpen h _ | EvRelease h =>
          (h < opens rest)%nat /\ released h rest = false
      | _ => True
      end /\ safe rest
  end.

(** The events that concern no capture. *)
Definition quiet (e : event) : bool :=
  match e with
  | EvNow _ | EvSleep _ | EvProbe _ | EvResolve _ | EvYield _ _ _ _ => true
  | _ => false
  end.

(** The trace is safe and the capture the engine holds, if any, is a live
    one. *)
Definition kept (c : option handle) (tr : list event) : Prop :=
  safe tr /\
  forall h, c = Some h -> (h < opens tr)%nat /\ released h tr = false.

Definition custody (g : generator) : Prop :=
  kept (cap (self (mach g))) (trace (mach g)).

Definition held (c : option handle) : list handle :=
  match c with Some h => [h] | None => [] end.

(** The open captures are the one the engine holds and at most [k]
    others. *)
Definition owning (c : option handle) (tr : list event) (k : nat) : Prop :=
  exists others,
    open_handles tr = held c ++ others /\
    Forall (fun h => (h < opens tr)%nat) (open_handles tr) /\
    (forall h, c = Some h -> ~ In h others) /\
    (length others <= k)%nat.

(** The control points that are reached without a capture. *)
Definition bare (c : control) : bool :=
  match c with
  | Created | FallbackBackoff _ => true
  | _ => false
  end.

Definition ownership (g : generator) : Prop :=
  (bare (ctrl g) = true -> cap (self (mach g)) = None) /\
  owning (cap (self (mach g))) (trace (mach g))
         (if in_primary (ctrl g) then 0 else 1).

(** ** The consumer between two resumptions *)

(** What happens to the generator between two control points: it runs on,
    or the consumer calls [update_capture_interval].  (The consumer only
    runs while the generator is suspended; an update is allowed here at
    every control point, which covers that and more.) *)
Inductive action :=
| Next
| SetInterval (new_interval : Z).

Definition perform (env : environment) (a : action) (g : generator) : generator :=
  match a with
  | Next => step env g
  | SetInterval new_interval =>
      {| ctrl := ctrl g;
         mach := {| self := update_capture_interval new_interval (self (mach g));
                    trace := trace (mach g) |} |}
  end.

Fixpoint play (env : environment) (actions : list action) (g : generator) : generator :=
  match actions with
  | [] => g
  | a :: rest => play env rest (perform env a g)
  end.

(** No interval below [lowest] is ever set. *)
Definition at_least (lowest : Z) (a : action) : Prop :=
  match a with
  | Next => True
  | SetInterval new_interval => lowest <= new_interval
  end.

Definition gated_above (lowest : Z) (g : generator) : Prop :=
  lowest <= capture_interval (self (mach g)) /\
  spaced lowest (yields (trace (mach g))) /\
  linked (ctrl g) (yields (trace (mach g))).

(** The first clock reading of a trace. *)
Fixpoint first_now (tr : list event) : option Z :=
  match tr with
  | [] => None
  | e :: rest =>
      match first_now rest with
      | Some t => Some t
      | None => match e with EvNow t => Some t | _ => None end
      end
  end.

(** Until its first yield, the primary loop has [last_process_time] one
    interval before its first clock reading, which line 83 could take off
    it. *)
Definition primed (interval : Z) (g : generator) : Prop :=
  capture_interval (self (mach g)) = interval /\
  (in_primary (ctrl g) = true -> yields (trace (mach g)) = [] ->
   match ctrl g with
   | Created | InitSleep _ AtStart | InitDone AtStart =>
       first_now (trace (mach g)) = None
   | InitSleep _ (AtLoopHead l) | InitSleep _ (AtReconnect l)
   | InitDone (AtLoopHead l) | InitDone (AtReconnect l)
   | PrimaryHead l | PrimaryYield l | PrimaryIdle l =>
       exists t0, first_now (trace (mach g)) = Some t0 /\
                  seconds_before t0 interval = Some (last_process_time l)
   | _ => True
   end).

(** * ViolationSender: the delivery of violations of src/violation_sender.py

    [TokenManager] and the HTTP client are not part of the sources: their
    answers are taken from a [backend], as functions of what the sender
    has done so far.  The lock of [_get_client] and [close] is not
    modelled (one task). *)

Module ViolationSender.

(** What a call of a collaborator gives: a value, or an exception. *)
Inductive answer (A : Type) :=
| Returns (a : A)
| Raises.
Arguments Returns {A} a.
Arguments Raises {A}.

(** What becomes of one POST to the upload endpoint, up to
    [resp.json().get('violation_id')]. *)
Inductive post_outcome :=
| Accepted (violation_id : option string)
| ConnectTimeout                 (* httpx.ConnectTimeout *)
| StatusError (status_code : Z)  (* httpx.HTTPStatusError of raise_for_status *)
| OtherError.                    (* any other Exception *)

Inductive call :=
| GetToken (token : answer (option string))  (* token_manager.get_valid_token() *)
| RefreshToken (done : bool)                 (* token_manager.refresh_token() *)
| NewClient (id : nat)                       (* httpx.AsyncClient(...) *)
| CloseClient (id : nat)                     (* client.aclose() *)
| Post (url authorization : string) (data : gmap string string)
       (image : list Byte.byte)              (* client.post(...) *)
| Sleep (seconds : Z).                       (* asyncio.sleep *)

Record backend := mk_backend {
  get_valid_token : list call -> answer (option string);
  refresh_token : list call -> bool;    (* false: it raised *)
  post : list call -> post_outcome
}.

Record http_client := mk_http_client {
  client_id : nat;
  is_closed : bool
}.

(** The attributes of a [ViolationSender] that its methods use. *)
Record sender := mk_sender {
  base_url : string;
  max_retries : Z;
  timeout : Z;
  client : option http_client
}.

Definition set_client (c : option http_client) (s : sender) : sender :=
  {| base_url := base_url s; max_retries := max_retries s;
     timeout := timeout s; client := c |}.

Definition slash : Ascii.ascii := Ascii.ascii_of_nat 47.   (* '/' *)

(** [str.rstrip('/')]. *)
Fixpoint rstrip_slash (s : string) : string :=
  match s with
  | EmptyString => EmptyString
  | String c rest =>
      match rstrip_slash rest with
      | EmptyString => if Ascii.eqb c slash then EmptyString else String c EmptyString
      | stripped => String c stripped
      end
  end.

(** [k] slashes. *)
Fixpoint slashes (k : nat) : string :=
  match k with
  | O => EmptyString
  | S k' => String slash (slashes k')
  end.

(** [__init__]; [environ] is the value of the environment variable
    [VIOLATION_RECORD_API_URL], if it is set. *)
Definition init (api_url environ : option string) (max_retries timeout : Z) : sender :=
  let api_url :=
    match api_url with
    | Some url => url
    | None => match environ with
              | Some url => url
              | None => "http://127.0.0.1:8002"%string
              end
    end in
  {| base_url := rstrip_slash api_url; max_retries := max_retries;
     timeout := timeout; client := None |}.

Definition is_new_client (e : call) : bool :=
  match e with NewClient _ => true | _ => false end.

Definition is_post (e : call) : bool :=
  match e with Post _ _ _ _ => true | _ => false end.

Definition posts (tr : list call) : nat := length (List.filter is_post tr).

(** The sleeps of a trace, most recent first. *)
Fixpoint sleeps (tr : list call) : list Z :=
  match tr with
  | [] => []
  | Sleep seconds :: rest => seconds :: sleeps rest
  | _ :: rest => sleeps rest
  end.

(** [_get_client]: the pooled client, created when there is none or when
    it is closed. *)
Definition _get_client (s : sender) (tr : list call)
    : http_client * sender * list call :=
  let fresh :=
    let c := {| client_id := length (List.filter is_new_client tr);
                is_closed := false |} in
    (c, set_client (Some c) s, NewClient (client_id c) :: tr) in
  match client s with
  | None => fresh
  | Some c => if is_closed c then fresh else (c, s, tr)
  end.

(** [close]. *)
Definition close (s : sender) (tr : list call) : sender * list call :=
  match client s with
  | Some c =>
      if negb (is_closed c)
      then (set_client None s, CloseClient (client_id c) :: tr)
      else (s, tr)
  | None => (s, tr)
  end.

(** The truth value of an optional string: [None] and [''] are false. *)
Definition truthy (value : option string) : option string :=
  match value with
  | Some EmptyString => None
  | other => other
  end.

(** [if value: data[key] = value]. *)
Definition add_if (key : string) (value : option string)
    (data : gmap string string) : gmap string string :=
  match truthy value with
  | Some v => <[key := v]> data
  | None => data
  end.

(** How an f-string renders the token: [None] is printed as such. *)
Definition render (token : option string) : string :=
  match token with
  | Some t => t
  | None => "None"%string
  end.

Definition bearer (token : option string) : string :=
  ("Bearer " ++ render token)%string.

(** What [send_violation] ends in. *)
Inductive outcome :=
| Returned (violation_id : option string)
| RuntimeError (message : string)
| HTTPStatusError (status_code : Z)
| OtherException.

Section Send.

(** [datetime] values and their [isoformat()]. *)
Variable datetime : Type.
Variable isoformat : datetime -> string.

Variable be : backend.

(** Lines 140-153: the form fields.  A [datetime] is always true, so the
    detection time is sent whenever it is given. *)
Definition form_data (site stream_name : string)
    (detection_time : option datetime)
    (warnings_json detections_json cone_polygon_json pole_polygon_json
       : option string) : gmap string string :=
  let data := <["stream_name" := stream_name]> (<["site" := site]> ∅) in
  let data := match detection_time with
              | Some t => <["detection_time" := isoformat t]> data
              | None => data
              end in
  let data := add_if "warnings_json" warnings_json data in
  let data := add_if "detections_json" detections_json data in
  let data := add_if "cone_polygon_json" cone_polygon_json data in
  add_if "pole_polygon_json" pole_polygon_json data.

(** Lines 164-215: the loop [for attempt in range(self.max_retries)], with
    [remaining] attempts to go, and the [return None] after it. *)
Fixpoint attempts (s : sender) (url : string) (data : gmap string string)
    (image : list Byte.byte) (remaining : nat) (attempt : Z)
    (authorization : string) (backoff_delay : Z) (tr : list call)
    : outcome * list call :=
  match remaining with
  | O => (Returned None, tr)
  | S remaining' =>
      let tr1 := Post url authorization data image :: tr in
      match post be tr1 with
      | Accepted violation_id => (Returned violation_id, tr1)
      | ConnectTimeout =>
          if attempt <? max_retries s - 1 then
            attempts s url data image remaining' (attempt + 1) authorization
                     (backoff_delay * 2) (Sleep backoff_delay :: tr1)
          else
            (RuntimeError
               "[send_violation] All retry attempts exhausted due to timeout",
             tr1)
      | StatusError status_code =>
          if status_code =? 401 then
            let done := refresh_token be tr1 in
            let tr2 := RefreshToken done :: tr1 in
            if done then
              let new_token := get_valid_token be tr2 in
              let tr3 := GetToken new_token :: tr2 in
              match new_token with
              | Returns new_token =>
                  if attempt <? max_retries s - 1 then
                    attempts s url data image remaining' (attempt + 1)
                             (bearer new_token) backoff_delay tr3
                  else (HTTPStatusError status_code, tr3)
              | Raises => (OtherException, tr3)
              end
            else (OtherException, tr2)
          else (HTTPStatusError status_code, tr1)
      | OtherError =>
          if attempt <? max_retries s - 1 then
            attempts s url data image remaining' (attempt + 1) authorization
                     (backoff_delay * 2) (Sleep backoff_delay :: tr1)
          else (OtherException, tr1)
      end
  end.

(** [send_violation]. *)
Definition send_violation (s : sender) (tr : list call)
    (site stream_name : string) (image_bytes : list Byte.byte)
    (detection_time : option datetime)
    (warnings_json detections_json cone_polygon_json pole_polygon_json
       : option string) : outcome * sender * list call :=
  let access_token := get_valid_token be tr in
  let tr := GetToken access_token :: tr in
  match access_token with
  | Raises => (OtherException, s, tr)
  | Returns access_token =>
      match truthy access_token with
      | None => (RuntimeError "Failed to obtain valid access token", s, tr)
      | Some access_token =>
          let data := form_data site stream_name detection_time warnings_json
                                detections_json cone_polygon_json
                                pole_polygon_json in
          let upload_url := (base_url s ++ "/upload")%string in
          let '(_, s, tr) := _get_client s tr in
          let (result, tr) :=
            attempts s upload_url data image_bytes (Z.to_nat (max_retries s)) 0
                     (bearer (Some access_token)) 1 tr in
          (result, s, tr)
      end
  end.

End Send.

(** The token of the most recent [get_valid_token] that returned. *)
Fixpoint latest_token (tr : list call) : option (option string) :=
  match tr with
  | [] => None
  | GetToken (Returns t) :: _ => Some t
  | _ :: rest => latest_token rest
  end.

(** Every request carries the token that the token manager returned
    last. *)
Fixpoint authorised (tr : list call) : Prop :=
  match tr with
  | [] => True
  | Post _ authorization _ _ :: rest =>
      (exists t, latest_token rest = Some t /\ authorization = bearer t) /\
      authorised rest
  | _ :: rest => authorised rest
  end.

(** The delays 1, 2, 4, ... of an exponential back-off that starts with
    [first], oldest first. *)
Definition backoff_schedule (first : Z) (k : nat) : list Z :=
  map (fun i => first * 2 ^ Z.of_nat i) (seq 0 k).

Definition timeout_message : string :=
  "[send_violation] All retry attempts exhausted due to timeout".

(** The trace ends with a request, answered by [answer]. *)
Definition last_request (be : backend) (tr : list call) (answer : post_outcome) : Prop :=
  (exists url authorization data image rest,
     tr = Post url authorization data image :: rest) /\
  post be tr = answer.

(** What an outcome of the retry loop says about the requests made, when
    [remaining] attempts were allowed and [new] is what the loop did. *)
Definition explained (be : backend) (result : outcome) (remaining : nat)
    (new tr : list call) : Prop :=
  match result with
  | Returned violation_id =>
      (remaining = 0%nat /\ violation_id = None /\ new = []) \/
      last_request be tr (Accepted violation_id)
  | RuntimeError message =>
      message = timeout_message /\ posts new = remaining /\
      last_request be tr ConnectTimeout
  | HTTPStatusError status_code =>
      (status_code <> 401 /\ last_request be tr (StatusError status_code)) \/
      (status_code = 401 /\ posts new = remaining)
  | OtherException => True
  end.

(** How the loop gets from one request to the next.  [new] lists what
    the loop did after [tr], most recent first.  Every sleep comes
    directly after a request that timed out or raised another exception;
    every refresh of the token comes directly after a request refused with
    status 401; and what comes directly after a request refused with 401
    is the refresh, never a sleep. *)
Fixpoint paced (be : backend) (tr new : list call) : Prop :=
  match new with
  | [] => True
  | e :: older =>
      match e with
      | Sleep _ =>
          last_request be (older ++ tr) ConnectTimeout \/
          last_request be (older ++ tr) OtherError
      | RefreshToken _ => last_request be (older ++ tr) (StatusError 401)
      | _ => True
      end /\
      (older <> [] -> last_request be (older ++ tr) (StatusError 401) ->
       exists done, e = RefreshToken done) /\
      paced be tr older
  end.

(** The calls that concern the client pool. *)
Definition is_pool_call (e : call) : bool :=
  match e with NewClient _ | CloseClient _ => true | _ => false end.

Definition is_close (e : call) : bool :=
  match e with CloseClient _ => true | _ => false end.

(** What a user of the sender does with the pool. *)
Inductive pool_op := GetClient | Close.

Definition pool_step (op : pool_op) (st : sender * list call) : sender * list call :=
  match op with
  | GetClient => let '(_, s, tr) := _get_client (fst st) (snd st) in (s, tr)
  | Close => close (fst st) (snd st)
  end.

Fixpoint pool_run (ops : list pool_op) (st : sender * list call) : sender * list call :=
  match ops with
  | [] => st
  | op :: rest => pool_run rest (pool_step op st)
  end.

(** The pool holds an open client exactly when one more client has been
    created than closed, and that client is the last one created. *)
Definition pooled (st : sender * list call) : Prop :=
  match client (fst st) with
  | Some c =>
      is_closed c = false /\
      length (List.filter is_new_client (snd st)) = S (client_id c) /\
      length (List.filter is_close (snd st)) = client_id c
  | None =>
      length (List.filter is_new_client (snd st))
      = length (List.filter is_close (snd st))
  end.

(** A backend whose token has expired: requests with the old token are
    refused with status 401, the refresh succeeds, and requests with the
    new token are accepted as violation 42. *)
Definition expired_token : backend :=
  {| get_valid_token := fun tr =>
       if existsb (fun e => match e with RefreshToken true => true | _ => false end) tr
       then Returns (Some "new"%string) else Returns (Some "old"%string);
     refresh_token := fun _ => true;
     post := fun tr =>
       match tr with
       | Post _ authorization _ _ :: _ =>
           if String.eqb authorization "Bearer new"
           then Accepted (Some "42"%string) else StatusError 401
       | _ => OtherError
       end |}.

(** A backend that cannot be reached: every request times out. *)
Definition unreachable : backend :=
  {| get_valid_token := fun _ => Returns (Some "old"%string);
     refresh_token := fun _ => true;
     post := fun _ => ConnectTimeout |}.

End ViolationSender.

(** * Verification *)

(** ** Dates and times *)

Lemma round_half_even_lower (a b k : Z) :
  0 < b -> k * b <= a -> k <= round_half_even a b.
Proof.
  intros Hb Hk. unfold round_half_even.
  pose proof (Z.div_mod a b ltac:(lia)) as Hdm.
  pose proof (Z.mod_pos_bound a b Hb) as Hr.
  assert (k <= a / b) by nia.
  repeat match goal with |- context [if ?c then _ else _] => destruct c end; lia.
Qed.

Lemma round_half_even_upper (a b k : Z) :
  0 < b -> a <= k * b -> round_half_even a b <= k.
Proof.
  intros Hb Hk. unfold round_half_even.
  pose proof (Z.div_mod a b ltac:(lia)) as Hdm.
  pose proof (Z.mod_pos_bound a b Hb) as Hr.
  destruct (2 * (a mod b) <? b) eqn:E1; [nia|].
  apply Z.ltb_ge in E1.
  assert (a / b + 1 <= k) by nia.
  repeat match goal with |- context [if ?c then _ else _] => destruct c end; lia.
Qed.

(** The binade of n/d: with P = 2^log2 n, D = 2^log2 d and C = 2^c, the
    quotient n/d lies between P/(D*C) and twice that. *)
Lemma binade (n d : Z) :
  0 < n -> 0 < d ->
  let P := 2 ^ Z.log2 n in
  let D := 2 ^ Z.log2 d in
  let c := if P * d <=? n * D then 0 else 1 in
  0 < P /\ 0 < D /\ P <= n < 2 * P /\ D <= d < 2 * D /\
  (c = 0 \/ c = 1) /\
  P * d <= n * D * 2 ^ c /\ n * D * 2 ^ c < 2 * (P * d).
Proof.
  intros Hn Hd P D c.
  pose proof (Z.log2_spec n Hn) as [Hn1 Hn2].
  pose proof (Z.log2_spec d Hd) as [Hd1 Hd2].
  rewrite Z.pow_succ_r in Hn2, Hd2 by apply Z.log2_nonneg.
  fold P in Hn1, Hn2. fold D in Hd1, Hd2.
  assert (0 < P) by (apply Z.pow_pos_nonneg; [lia | apply Z.log2_nonneg]).
  assert (0 < D) by (apply Z.pow_pos_nonneg; [lia | apply Z.log2_nonneg]).
  assert (Hlow : P * d <= n * D * 2) by
    (apply Z.le_trans with (P * (2 * D)); [apply Z.mul_le_mono_nonneg_l; lia|];
     replace (n * D * 2) with (n * (2 * D)) by ring;
     apply Z.mul_le_mono_nonneg_r; lia).
  assert (Hhigh : n * D < 2 * (P * d)) by
    (apply Z.lt_le_trans with (2 * P * D); [apply Z.mul_lt_mono_pos_r; lia|];
     replace (2 * (P * d)) with (2 * P * d) by ring;
     apply Z.mul_le_mono_nonneg_l; lia).
  repeat split; try lia; subst c;
    destruct (P * d <=? n * D) eqn:E;
    [apply Z.leb_le in E|apply Z.leb_gt in E| apply Z.leb_le in E|apply Z.leb_gt in E
    | apply Z.leb_le in E|apply Z.leb_gt in E];
    auto; change (2 ^ 0) with 1; change (2 ^ 1) with 2; lia.
Qed.

Section Nearest.

Variables n d : Z.
Hypothesis Hn : 0 < n.
Hypothesis Hd : 0 < d.

Let P := 2 ^ Z.log2 n.
Let D := 2 ^ Z.log2 d.
Let c := if P * d <=? n * D then 0 else 1.
Let E := 2 ^ (52 + Z.log2 d + c).
Let m := round_half_even (n * E) (d * P).

Lemma nearest_binary64_unfold : nearest_binary64 n d = Qmake (m * P) (Z.to_pos E).
Proof. reflexivity. Qed.

Lemma scale_eq : E = 2 ^ 52 * D * 2 ^ c /\ 0 < E /\ (c = 0 \/ c = 1).
Proof.
  destruct (binade n d Hn Hd) as (HP & HD & HnP & HdD & Hc & Hlo & Hhi).
  fold P D c in HP, HD, HnP, HdD, Hc, Hlo, Hhi.
  pose proof (Z.log2_nonneg d).
  assert (E = 2 ^ 52 * D * 2 ^ c).
  { unfold E, D. rewrite !Z.pow_add_r by lia. reflexivity. }
  split; [assumption|]. split; [|assumption].
  destruct Hc as [Hc|Hc]; rewrite Hc in *; lia.
Qed.

Lemma significand_lower : 2 ^ 52 <= m.
Proof.
  destruct (binade n d Hn Hd) as (HP & HD & HnP & HdD & Hc & Hlo & Hhi).
  fold P D c in HP, HD, HnP, HdD, Hc, Hlo, Hhi.
  destruct scale_eq as (HE & HE0 & _).
  apply round_half_even_lower; [nia|].
  rewrite HE. replace (n * (2 ^ 52 * D * 2 ^ c)) with (2 ^ 52 * (n * D * 2 ^ c)) by ring.
  replace (2 ^ 52 * (d * P)) with (2 ^ 52 * (P * d)) by ring.
  apply Z.mul_le_mono_nonneg_l; lia.
Qed.

(** Either the scale is a multiple of [P], or [P] is at least twice the
    scale. *)
Lemma scale_cases :
  (exists U, 0 < U /\ E = P * U) \/ (exists V, 2 <= V /\ P = E * V).
Proof.
  pose proof (Z.log2_nonneg n). pose proof (Z.log2_nonneg d).
  destruct scale_eq as (_ & _ & Hc).
  destruct (Z_le_gt_dec (Z.log2 n) (52 + Z.log2 d + c)) as [Hle|Hgt].
  - left. exists (2 ^ (52 + Z.log2 d + c - Z.log2 n)). split.
    + apply Z.pow_pos_nonneg; lia.
    + unfold E, P. rewrite <- Z.pow_add_r by lia. f_equal. lia.
  - right. exists (2 ^ (Z.log2 n - (52 + Z.log2 d + c))). split.
    + change 2 with (2 ^ 1) at 1. apply Z.pow_le_mono_r; lia.
    + unfold E, P. rewrite <- Z.pow_add_r by lia. f_equal. lia.
Qed.

Lemma nearest_binary64_pos : (0 < nearest_binary64 n d)%Q.
Proof.
  rewrite nearest_binary64_unfold. unfold Qlt. simpl.
  pose proof significand_lower.
  destruct (binade n d Hn Hd) as (HP & _). fold P in HP.
  assert (0 < m) by lia. nia.
Qed.

Lemma nearest_binary64_ge (I : Z) :
  0 < I <= 2 ^ 53 -> I * d <= n -> (inject_Z I <= nearest_binary64 n d)%Q.
Proof.
  intros HI Hle. rewrite nearest_binary64_unfold. unfold Qle. simpl.
  destruct scale_eq as (_ & HE0 & _). rewrite Z2Pos.id by exact HE0.
  rewrite Z.mul_1_r.
  destruct (binade n d Hn Hd) as (HP & _). fold P in HP.
  destruct scale_cases as [(U & HU & HEU)|(V & HV & HPV)].
  - assert (Hk : I * U <= m).
    { apply round_half_even_lower; [nia|]. rewrite HEU.
      replace (I * U * (d * P)) with (I * d * (P * U)) by ring.
      apply Z.mul_le_mono_nonneg_r; nia. }
    rewrite HEU. replace (I * (P * U)) with (I * U * P) by ring.
    apply Z.mul_le_mono_nonneg_r; lia.
  - pose proof significand_lower as Hm. rewrite HPV.
    apply Z.le_trans with (2 ^ 53 * E); [apply Z.mul_le_mono_nonneg_r; lia|].
    replace (m * (E * V)) with (m * V * E) by ring.
    apply Z.mul_le_mono_nonneg_r; [lia|].
    change (2 ^ 53) with (2 ^ 52 * 2). nia.
Qed.

Lemma nearest_binary64_le (J : Z) :
  0 < J <= 2 ^ 52 -> n <= J * d -> (nearest_binary64 n d <= inject_Z J)%Q.
Proof.
  intros HJ Hle. rewrite nearest_binary64_unfold. unfold Qle. simpl.
  destruct scale_eq as (HE & HE0 & Hc). rewrite Z2Pos.id by exact HE0.
  rewrite Z.mul_1_r.
  destruct (binade n d Hn Hd) as (HP & HD & HnP & HdD & _ & Hlo & Hhi).
  fold P D c in HP, HD, HnP, HdD, Hlo, Hhi.
  destruct scale_cases as [(U & HU & HEU)|(V & HV & HPV)].
  - assert (Hk : m <= J * U).
    { apply round_half_even_upper; [nia|]. rewrite HEU.
      replace (J * U * (d * P)) with (J * d * (P * U)) by ring.
      apply Z.mul_le_mono_nonneg_r; nia. }
    rewrite HEU. replace (J * (P * U)) with (J * U * P) by ring.
    apply Z.mul_le_mono_nonneg_r; lia.
  - exfalso.
    assert (2 ^ 53 * D <= P).
    { rewrite HPV, HE. change (2 ^ 53) with (2 ^ 52 * 2).
      assert (1 <= 2 ^ c) by (destruct Hc as [->| ->]; simpl; lia). nia. }
    assert (J * d < 2 ^ 53 * D).
    { change (2 ^ 53) with (2 ^ 52 * 2). nia. }
    lia.
Qed.

End Nearest.

Lemma nearest_binary64_lt (n d I : Z) :
  0 < n -> 0 < d <= 2 ^ 20 -> 0 < I <= 2 ^ 33 -> n < I * d ->
  (nearest_binary64 n d < inject_Z I)%Q.
Proof.
  intros Hn [Hd Hd20] HI Hlt.
  rewrite (nearest_binary64_unfold n d). unfold Qlt.
  cbn [Qnum Qden inject_Z].
  destruct (scale_eq n d Hn Hd) as (HE & HE0 & Hc).
  rewrite Z2Pos.id by exact HE0. rewrite Z.mul_1_r.
  destruct (binade n d Hn Hd) as (HP & HD & HnP & HdD & _ & Hlo & Hhi).
  cbv zeta in Hlo, Hhi.
  set (P := 2 ^ Z.log2 n) in *. set (D := 2 ^ Z.log2 d) in *.
  set (c := if P * d <=? n * D then 0 else 1) in *.
  set (E := 2 ^ (52 + Z.log2 d + c)) in *.
  set (m := round_half_even (n * E) (d * P)).
  pose proof (Z.log2_nonneg n). pose proof (Z.log2_nonneg d).
  assert (Hc0 : 0 <= c) by (destruct Hc; lia).
  assert (HPlt : P < 2 ^ (33 + Z.log2 d + c)).
  { rewrite !Z.pow_add_r by lia. fold D.
    assert (0 < 2 ^ c) by (apply Z.pow_pos_nonneg; lia).
    assert (P * d < I * (D * 2 ^ c) * d) by nia.
    assert (P < I * (D * 2 ^ c)) by (apply Z.mul_lt_mono_pos_r with d; lia).
    assert (I * (D * 2 ^ c) <= 2 ^ 33 * (D * 2 ^ c))
      by (apply Z.mul_le_mono_nonneg_r; nia).
    lia. }
  assert (Hln : Z.log2 n <= 32 + Z.log2 d + c).
  { unfold P in HPlt. apply Z.pow_lt_mono_r_iff in HPlt; lia. }
  set (U := 2 ^ (52 + Z.log2 d + c - Z.log2 n)).
  assert (HEU : E = P * U).
  { unfold E, P, U. rewrite <- Z.pow_add_r by lia. f_equal. lia. }
  assert (HU : d <= U).
  { apply Z.le_trans with (2 ^ 20); [exact Hd20|].
    unfold U. apply Z.pow_le_mono_r; lia. }
  assert (Hk : m <= I * U - 1).
  { apply round_half_even_upper; [nia|]. rewrite HEU.
    assert (n * (P * U) <= (I * d - 1) * (P * U))
      by (apply Z.mul_le_mono_nonneg_r; nia).
    assert (P * d <= P * U) by (apply Z.mul_le_mono_nonneg_l; lia).
    replace ((I * U - 1) * (d * P)) with (I * d * (P * U) - P * d) by ring.
    replace ((I * d - 1) * (P * U)) with (I * d * (P * U) - P * U) in * by ring.
    lia. }
  rewrite HEU. replace (I * (P * U)) with (I * U * P) by ring.
  apply Z.mul_lt_mono_pos_r; lia.
Qed.

(** [total_seconds()] of a timedelta of [us] microseconds reaches the
    whole number of seconds [interval] when the microseconds do. *)
Lemma total_seconds_reaches (interval us : Z) :
  Z.abs interval <= 2 ^ 52 -> interval * 1000000 <= us ->
  Qle_bool (inject_Z interval) (total_seconds us) = true.
Proof.
  intros Hb Hle. apply Qle_bool_iff. unfold total_seconds.
  destruct us as [|p|p].
  - unfold Qle; simpl. lia.
  - destruct (Z_le_gt_dec interval 0) as [Hi|Hi].
    + apply Qle_trans with 0%Q; [unfold Qle; simpl; lia|].
      apply Qlt_le_weak, nearest_binary64_pos; lia.
    + apply nearest_binary64_ge; try lia.
  - assert (Hneg : (nearest_binary64 (- Z.neg p) 1000000 <= inject_Z (- interval))%Q).
    { apply nearest_binary64_le; lia. }
    apply Qopp_le_compat in Hneg.
    eapply Qle_trans; [|exact Hneg].
    unfold Qle; simpl. lia.
Qed.

(** Up to 2^33 seconds the comparison is exact: microseconds short of
    [interval] seconds give fewer than [interval] seconds. *)
Lemma total_seconds_short (interval us : Z) :
  0 <= interval <= 2 ^ 33 -> us < interval * 1000000 ->
  Qle_bool (inject_Z interval) (total_seconds us) = false.
Proof.
  intros Hb Hlt. apply Bool.not_true_iff_false. rewrite Qle_bool_iff.
  apply Qlt_not_le. unfold total_seconds.
  destruct us as [|p|p].
  - unfold Qlt; simpl. lia.
  - apply nearest_binary64_lt; lia.
  - apply Qlt_le_trans with 0%Q; [|unfold Qle; simpl; lia].
    assert (H : (0 < nearest_binary64 (- Z.neg p) 1000000)%Q)
      by (apply nearest_binary64_pos; lia).
    revert H. generalize (nearest_binary64 (- Z.neg p) 1000000).
    intros [a b]. unfold Qlt. simpl. lia.
Qed.

Lemma seconds_before_value (t seconds last : Z) :
  seconds_before t seconds = Some last ->
  last = t - seconds * 1000000 /\ Z.abs seconds <= 2 ^ 52.
Proof.
  unfold seconds_before, timedelta_seconds, datetime_sub.
  destruct ((-999999999 <=? seconds / 86400) && (seconds / 86400 <=? 999999999))
    eqn:Hdays; [|discriminate].
  destruct ((datetime_min <=? t - seconds * 1000000)
            && (t - seconds * 1000000 <=? datetime_max)); [|discriminate].
  intros H. injection H as <-. split; [reflexivity|].
  apply andb_prop in Hdays. destruct Hdays as [H1 H2].
  apply Z.leb_le in H1, H2.
  pose proof (Z.div_mod seconds 86400 ltac:(lia)).
  pose proof (Z.mod_pos_bound seconds 86400 ltac:(lia)).
  change (2 ^ 52) with 4503599627370496. lia.
Qed.

(** A lower interval is reached whenever a higher one is. *)
Lemma elapsed_lower (lowest interval t1 t2 : Z) :
  lowest <= interval -> elapsed interval t1 t2 -> elapsed lowest t1 t2.
Proof.
  unfold elapsed. rewrite !Qle_bool_iff. intros Hle H.
  eapply Qle_trans; [|exact H]. unfold Qle; simpl. lia.
Qed.

(** Up to 2^33 seconds, the test of the gate is exact. *)
Lemma elapsed_apart (interval t1 t2 : Z) :
  0 <= interval <= 2 ^ 33 -> elapsed interval t1 t2 -> apart interval t1 t2.
Proof.
  unfold elapsed, apart. intros Hb H.
  destruct (Z_le_gt_dec (interval * 1000000) (t2 - t1)) as [Hle|Hgt]; [exact Hle|].
  rewrite total_seconds_short in H by (try exact Hb; lia). discriminate H.
Qed.

Lemma successive_impl (A : Type) (R R' : A -> A -> Prop) (ys : list (loop * A)) :
  (forall a b, R a b -> R' a b) -> successive R ys -> successive R' ys.
Proof.
  intros HR. induction ys as [|[w2 t2] rest IH]; [exact id|].
  simpl. intros [H Hs]. split; [|exact (IH Hs)].
  destruct rest as [|[w1 t1] rest']; auto.
Qed.

(** ** Teardown *)

Lemma release_resources_released (m : machine) :
  cap (self m) = None -> release_resources m = (tt, m).
Proof. intros H. unfold release_resources. now rewrite H. Qed.

Lemma release_resources_cap (m : machine) :
  cap (self (snd (release_resources m))) = None.
Proof.
  unfold release_resources.
  destruct (cap (self m)) as [h|] eqn:E; simpl; [reflexivity | exact E].
Qed.

Lemma release_resources_releases (m : machine) :
  releases (trace (snd (release_resources m))) =
  match cap (self m) with
  | Some _ => S (releases (trace m))
  | None => releases (trace m)
  end.
Proof. unfold release_resources. now destruct (cap (self m)). Qed.

(** C9. [release_resources] is idempotent.  On an engine whose capture is
    already released it changes nothing, neither the engine nor the trace;
    two calls in a row leave the state one call leaves; and the two calls
    together release at most one capture, exactly one when a capture was
    held, which is then the one the engine held. *)
Theorem release_resources_idempotent (m : machine) :
  (cap (self m) = None -> release_resources m = (tt, m)) /\
  release_resources (snd (release_resources m)) = release_resources m /\
  (releases (trace (snd (release_resources (snd (release_resources m)))))
   <= S (releases (trace m)))%nat /\
  (forall h, cap (self m) = Some h ->
     trace (snd (release_resources (snd (release_resources m))))
     = EvRelease h :: trace m).
Proof.
  split; [apply release_resources_released|].
  assert (Hsnd : release_resources (snd (release_resources m))
                 = (tt, snd (release_resources m))).
  { apply release_resources_released, release_resources_cap. }
  split.
  - rewrite Hsnd. unfold release_resources. now destruct (cap (self m)).
  - rewrite Hsnd. cbn [snd]. split.
    + rewrite release_resources_releases. destruct (cap (self m)); lia.
    + intros h Hh. unfold release_resources. now rewrite Hh.
Qed.

Lemma release_resources_idempotent_witness :
  let m := {| self := set_cap (Some 3%nat) (init "rtsp://cam" 15); trace := [] |} in
  release_resources (snd (release_resources m)) = release_resources m /\
  trace (snd (release_resources (snd (release_resources m)))) = [EvRelease 3%nat] /\
  release_resources (snd (release_resources m)) = (tt, snd (release_resources m)).
Proof.
  intros m.
  destruct (release_resources_idempotent m) as (_ & Htwice & _ & Hone).
  destruct (release_resources_idempotent (snd (release_resources m)))
    as (Hnone & _).
  split; [exact Htwice|]. split.
  - apply (Hone 3%nat). reflexivity.
  - apply Hnone. reflexivity.
Defined.

(** ** Quality selection *)

Lemma first_available_spec (preferred : list string) (streams : gmap string stream) :
  match first_available preferred streams with
  | Some (quality, selected_stream) =>
      exists before after,
        preferred = before ++ quality :: after /\
        streams !! quality = Some selected_stream /\
        Forall (fun q => streams !! q = None) before
  | None => Forall (fun q => streams !! q = None) preferred
  end.
Proof.
  induction preferred as [|q rest IH]; simpl.
  - constructor.
  - destruct (streams !! q) as [selected|] eqn:E.
    + exists [], rest. repeat split; [exact E | constructor].
    + destruct (first_available rest streams) as [[quality selected]|].
      * destruct IH as (before & after & -> & Hq & Hb).
        exists (q :: before), after. repeat split; [exact Hq|].
        constructor; assumption.
      * constructor; assumption.
Qed.

Lemma first_available_labels (preferred : list string)
    (streams streams' : gmap string stream) :
  dom streams = dom streams' ->
  fst <$> first_available preferred streams
  = fst <$> first_available preferred streams'.
Proof.
  intros Hdom. induction preferred as [|q rest IH]; simpl; [reflexivity|].
  destruct (streams !! q) as [u|] eqn:E, (streams' !! q) as [u'|] eqn:E';
    try reflexivity; try exact IH; exfalso.
  - assert (q ∈ dom streams') as Hin
      by (rewrite <- Hdom; apply elem_of_dom; eauto).
    apply elem_of_dom in Hin. destruct Hin as [x Hx]. congruence.
  - assert (q ∈ dom streams) as Hin
      by (rewrite Hdom; apply elem_of_dom; eauto).
    apply elem_of_dom in Hin. destruct Hin as [x Hx]. congruence.
Qed.

Lemma preferred_qualities_classes (download_speed : Q) :
  ((10 < download_speed)%Q ->
     preferred_qualities download_speed
     = ["best"; "1080p"; "720p"; "480p"; "360p"; "240p"; "worst"]%string) /\
  ((5 < download_speed)%Q /\ (download_speed <= 10)%Q ->
     preferred_qualities download_speed
     = ["720p"; "480p"; "360p"; "240p"; "worst"]%string) /\
  ((download_speed <= 5)%Q ->
     preferred_qualities download_speed
     = ["480p"; "360p"; "240p"; "worst"]%string).
Proof.
  assert (Hle : forall a b : Q, Qle_bool a b = true <-> (a <= b)%Q)
    by (intros; apply Qle_bool_iff).
  assert (Hgt : forall a b : Q, (b < a)%Q -> Qle_bool a b = false).
  { intros a b Hlt. destruct (Qle_bool a b) eqn:E; [|reflexivity].
    apply Hle in E. exfalso. revert E. apply Qlt_not_le, Hlt. }
  repeat split.
  - intros H. unfold preferred_qualities. now rewrite (Hgt _ _ H).
  - intros [H5 H10]. unfold preferred_qualities.
    rewrite (Hgt _ _ H5). apply Hle in H10. now rewrite H10.
  - intros H5. unfold preferred_qualities.
    assert (H10 : (download_speed <= 10 # 1)%Q)
      by (eapply Qle_trans; [exact H5 | unfold Qle; simpl; lia]).
    apply Hle in H5, H10. now rewrite H5, H10.
Qed.

(** C4, as the code has it.  [select_quality_based_on_speed], when the
    speed test measures [download_speed] and streamlink offers [streams]:
    the ladder is [best, 1080p, 720p, 480p, 360p, 240p, worst] above
    10 Mbps, [720p, 480p, 360p, 240p, worst] above 5 and up to 10 Mbps,
    and [480p, 360p, 240p, worst] up to 5 Mbps.  The first label of the
    ladder that streamlink offers is selected, and what the method
    returns is the [url] attribute of its stream: the URL, or [None] when
    that stream has no such attribute (no later candidate is tried).
    When no label of the ladder is offered the method returns [None].
    The method probes once and resolves once, and leaves the engine as it
    was.  The selected label depends only on the speed and on the set of
    offered labels. *)
Theorem select_quality_first_offered (env : environment) (m : machine)
    (download_speed : Q) (streams : gmap string stream) :
  env_speed env (trace m) = Some download_speed ->
  env_streams env (EvProbe (Some download_speed) :: trace m) = Some streams ->
  let ladder := preferred_qualities download_speed in
  ((10 < download_speed)%Q ->
     ladder = ["best"; "1080p"; "720p"; "480p"; "360p"; "240p"; "worst"]%string) /\
  ((5 < download_speed)%Q /\ (download_speed <= 10)%Q ->
     ladder = ["720p"; "480p"; "360p"; "240p"; "worst"]%string) /\
  ((download_speed <= 5)%Q ->
     ladder = ["480p"; "360p"; "240p"; "worst"]%string) /\
  (exists returned,
     select_quality_based_on_speed env m
     = (Some returned,
        {| self := self m;
           trace := EvResolve (Some streams)
                    :: EvProbe (Some download_speed) :: trace m |}) /\
     match first_available ladder streams with
     | Some (quality, selected_stream) =>
         returned = selected_stream /\
         exists before after,
           ladder = before ++ quality :: after /\
           streams !! quality = Some selected_stream /\
           Forall (fun q => streams !! q = None) before
     | None =>
         returned = None /\
         Forall (fun q => streams !! q = None) ladder
     end) /\
  (forall streams' : gmap string stream,
     dom streams' = dom streams ->
     fst <$> first_available ladder streams'
     = fst <$> first_available ladder streams).
Proof.
  intros Hspeed Hstreams ladder.
  destruct (preferred_qualities_classes download_speed) as (H1 & H2 & H3).
  split; [exact H1|]. split; [exact H2|]. split; [exact H3|]. split.
  - exists (quality_for_speed download_speed (Some streams)). split.
    + destruct m as [e tr]. simpl in Hspeed, Hstreams.
      unfold select_quality_based_on_speed, check_internet_speed,
        streamlink_streams, bind, ret. cbn.
      rewrite Hspeed. cbn. rewrite Hstreams. reflexivity.
    + pose proof (first_available_spec ladder streams) as Hs.
      unfold quality_for_speed. fold ladder.
      destruct (first_available ladder streams) as [[quality selected]|];
        split; try reflexivity; exact Hs.
  - intros streams' Hdom. now apply first_available_labels.
Qed.

Lemma select_quality_first_offered_witness :
  let m := {| self := init "rtsp://cam" 15; trace := [] |} in
  preferred_qualities (7 # 1) = ["720p"; "480p"; "360p"; "240p"; "worst"]%string /\
  fst (select_quality_based_on_speed Scenario.dead_primary m)
  = Some (Some "http://cdn/480"%string).
Proof.
  intros m.
  destruct (select_quality_first_offered Scenario.dead_primary m (7 # 1)
              Scenario.tiers eq_refl eq_refl)
    as (_ & Hmid & _ & (returned & Hrun & Hsel) & _).
  split; [apply Hmid; split; unfold Qlt, Qle; simpl; lia|].
  rewrite Hrun. simpl. f_equal.
  vm_compute in Hsel. destruct Hsel as [Hsel _]. exact Hsel.
Defined.

(** C4, as the claim states it, fails.  At 7 Mbps streamlink offers the
    labels 720p, 480p, 360p and worst.  When the 720p stream has a URL it
    is returned.  When the 720p stream has no [url] attribute, the label
    720p is still the one selected, reading its URL raises, and the method
    returns [None]: although candidate labels are offered (480p among
    them, with a URL), no source is selected.  The two offers have the
    same labels, so whether the attempt succeeds is not a function of the
    speed and of the labels. *)
Lemma selection_fails_although_labels_offered :
  let m := {| self := init "rtsp://cam" 15; trace := [] |} in
  dom Scenario.with_muxed_720p = dom Scenario.with_720p /\
  fst (select_quality_based_on_speed (Scenario.offering Scenario.with_720p) m)
  = Some (Some "http://cdn/720"%string) /\
  fst <$> first_available (preferred_qualities (7 # 1)) Scenario.with_muxed_720p
  = Some "720p"%string /\
  Scenario.with_muxed_720p !! "480p"%string = Some (Some "http://cdn/480"%string) /\
  fst (select_quality_based_on_speed (Scenario.offering Scenario.with_muxed_720p) m)
  = Some None.
Proof.
  intros m. split.
  - unfold Scenario.with_muxed_720p, Scenario.with_720p.
    rewrite !dom_insert_L. reflexivity.
  - repeat split; vm_compute; reflexivity.
Qed.

(** ** Runs *)

(** Unfolds one transition of the machine down to the environment's
    answers. *)
Ltac exec :=
  cbv [create init step resume primary_iteration fallback_iteration fallback_reresolve
       capture_generic_frames_start initialise_stream initialise_stream_resume
       gate select_quality_based_on_speed check_internet_speed
       streamlink_streams video_capture read now timestamp sleep emit modify gets
       release_resources bind ret failed succeeded
       set_cap mark_captured];
  cbn [ctrl mach self trace fst snd cap stream_url capture_interval
       successfully_captured last_process_time fail_count].

Section RunFacts.

Variable env : environment.

Lemma run_step (n : nat) (g : generator) :
  run env (S n) g = step env (run env n g).
Proof. revert g. induction n as [|n IH]; intros g; [reflexivity|]. apply (IH (step env g)). Qed.

Lemma run_add (n m : nat) (g : generator) :
  run env (n + m) g = run env m (run env n g).
Proof. revert g. induction n as [|n IH]; intros g; [reflexivity|]. apply (IH (step env g)). Qed.

(** An invariant of [step] that holds of a state holds along its run. *)
Lemma run_invariant (P : generator -> Prop) :
  (forall g, P g -> P (step env g)) ->
  forall n g, P g -> P (run env n g).
Proof.
  intros Hstep n. induction n as [|n IH]; intros g Hg; [exact Hg|].
  apply IH, Hstep, Hg.
Qed.

Lemma ended_step (g : generator) : ended (ctrl g) = true -> step env g = g.
Proof. destruct g as [[] m]; try discriminate; reflexivity. Qed.

Lemma ended_run (n : nat) (g : generator) :
  ended (ctrl g) = true -> run env n g = g.
Proof.
  intros H. induction n as [|n IH]; [reflexivity|].
  simpl. rewrite ended_step; assumption.
Qed.

(** The engine never changes its own URL or interval. *)
Lemma step_configuration (g : generator) :
  stream_url (self (mach (step env g))) = stream_url (self (mach g)) /\
  capture_interval (self (mach (step env g))) = capture_interval (self (mach g)).
Proof.
  destruct g as [c [e tr]]. destruct c as [|u k|k| | | | | | | | | |];
    try destruct k; exec; repeat case_match; simplify_eq/=; auto.
Qed.

End RunFacts.

(** ** The interval gate *)

Lemma all_primary_latest_fallback (t : Z) (ys : list (loop * Z)) :
  all_primary ys -> latest_fallback_at t ys.
Proof.
  intros H. destruct ys as [|[[] t'] ys]; simpl; auto.
  inversion H as [|? ? Hy]; subst. discriminate Hy.
Qed.

Lemma spaced_primary (interval t : Z) (l : locals) (ys : list (loop * Z)) :
  elapsed interval (last_process_time l) t ->
  spaced interval ys -> latest_at (last_process_time l) ys ->
  spaced interval ((Primary, t) :: ys).
Proof.
  intros Hgate Hs Hl. split; [|exact Hs].
  destruct ys as [|[w1 t1] ys]; [exact I|]. simpl in Hl. subst t1. now intros _.
Qed.

Lemma spaced_fallback (interval t : Z) (l : locals) (ys : list (loop * Z)) :
  elapsed interval (last_process_time l) t ->
  spaced interval ys -> latest_fallback_at (last_process_time l) ys ->
  spaced interval ((Fallback, t) :: ys).
Proof.
  intros Hgate Hs Hl. split; [|exact Hs].
  destruct ys as [|[w1 t1] ys]; [exact I|]. intros ->. simpl in Hl. now subst t1.
Qed.

Lemma gated_step (env : environment) (interval : Z) (g : generator) :
  gated interval g -> gated interval (step env g).
Proof.
  destruct g as [c [e tr]]. unfold gated.
  destruct c as [|u k|k| | | | | | | | | |]; try destruct k;
    exec; intros (HT & Hs & Hl); repeat case_match; simplify_eq/=;
    repeat match goal with
    | H : _ /\ _ |- _ => destruct H
    end;
    try match goal with H : yields _ = [] |- _ => rewrite H in * end;
    (split; [reflexivity|split]);
    first [ assumption
          | eapply spaced_primary; eassumption
          | eapply spaced_fallback; eassumption
          | exact I
          | reflexivity
          | apply all_primary_latest_fallback; assumption
          | split; first [assumption | reflexivity | exact I
                         | constructor; first [reflexivity | assumption]] ].
Qed.

Lemma stamped_step (env : environment) (g : generator) :
  stamped env (trace (mach g)) -> stamped env (trace (mach (step env g))).
Proof.
  destruct g as [c [e tr]].
  destruct c as [|u k|k| | | | | | | | | |]; try destruct k;
    exec; intros Hs; repeat case_match; simplify_eq/=; auto.
Qed.

(** C3, as the code has it.  With a fixed capture interval, the local
    clock readings ([datetime.now()]) of two successive yields of the same
    loop pass the test of the gate:
    [(c2 - c1).total_seconds() >= capture_interval]; for an interval
    between 0 and 2^33 seconds this means that they are at least that
    interval apart, to the microsecond.  The timestamp handed out with a
    frame is [timestamp()] of the clock reading of its yield.  The pair
    made of the last primary yield and the first fallback yield is not
    constrained. *)
Theorem yields_spaced_on_the_local_clock (env : environment) (url : string)
    (interval : Z) (n : nat) :
  let tr := trace (mach (run env n (create url interval))) in
  successive (elapsed interval) (yields tr) /\
  (0 <= interval <= 2 ^ 33 -> successive (apart interval) (yields tr)) /\
  stamped env tr.
Proof.
  intros tr.
  assert (H : gated interval (run env n (create url interval))).
  { apply run_invariant; [apply gated_step|].
    repeat split; reflexivity. }
  destruct H as (_ & Hs & _). split; [exact Hs|]. split.
  - intros Hb. eapply successive_impl; [|exact Hs].
    intros t1 t2. now apply elapsed_apart.
  - apply (run_invariant env (fun g => stamped env (trace (mach g)))
             (stamped_step env)). exact I.
Qed.

Lemma yields_spaced_on_the_local_clock_witness :
  let tr := trace (mach (run Scenario.healthy 70 (create "rtsp://cam" 15))) in
  length (yields tr) = 3%nat /\
  successive (apart 15) (yields tr).
Proof.
  intros tr. split; [vm_compute; reflexivity|].
  destruct (yields_spaced_on_the_local_clock Scenario.healthy "rtsp://cam" 15 70)
    as (_ & Hexact & _).
  apply Hexact. split; [lia | discriminate].
Defined.

(** C3, as the claim states it, fails: the timestamps handed out can be
    closer than the interval.  In the night of the change to summer time
    (Europe/Berlin, 2024-03-31) a healthy stream with an interval of 15
    seconds is read at 01:59:57 and at 03:00:03 local time.  The gate
    sees 3606 seconds between the two readings and lets both frames
    through; their timestamps are 1711846797 and 1711846803, six seconds
    apart. *)
Lemma emitted_timestamps_closer_than_interval :
  let tr := trace (mach (run Scenario.spring_forward 6 (create "rtsp://cam" 15))) in
  yields tr = [(Primary, 1711854003000000); (Primary, 1711850397000000)] /\
  stamps tr = [(Primary, 1711846803 # 1); (Primary, 1711846797 # 1)]%Q /\
  ~ successive (stamps_apart 15) (stamps tr).
Proof.
  intros tr.
  assert (Hy : yields tr = [(Primary, 1711854003000000); (Primary, 1711850397000000)])
    by (vm_compute; reflexivity).
  assert (Hs : stamps tr = [(Primary, 1711846803 # 1); (Primary, 1711846797 # 1)]%Q)
    by (vm_compute; reflexivity).
  split; [exact Hy|]. split; [exact Hs|].
  rewrite Hs. intros [H _]. specialize (H eq_refl).
  revert H. unfold stamps_apart, Qle. cbn. lia.
Qed.

(** ** The hand-off to the fallback loop *)

Section Handoff.

Variable env : environment.

Lemma reaches_here (g : generator) (P : generator -> Prop) : P g -> reaches env g P.
Proof. intros H. now exists 0%nat. Qed.

Lemma reaches_step (g : generator) (P : generator -> Prop) :
  reaches env (step env g) P -> reaches env g P.
Proof. intros [n H]. now exists (S n). Qed.

Lemma reaches_trans (g : generator) (P Q : generator -> Prop) :
  reaches env g P -> (forall g', P g' -> reaches env g' Q) -> reaches env g Q.
Proof.
  intros [n Hn] HPQ. destruct (HPQ _ Hn) as [m Hm].
  exists (n + m)%nat. now rewrite run_add.
Qed.

Variable interval : Z.

Hypothesis start_fits :
  forall hist, clock_readings hist = 0%nat ->
               is_Some (seconds_before (env_now env hist) interval).

Hypothesis first_five_fail :
  forall hist, (reads_of Primary hist < 5)%nat -> read_ok (env_read env hist) = false.

Ltac ask_opened :=
  match goal with
  | |- context [env_isOpened ?e ?t] => destruct (env_isOpened e t) eqn:?; exec
  end.

Ltac wake :=
  lazymatch goal with
  | |- reaches _ {| ctrl := InitSleep _ _; mach := _ |} _ =>
      apply reaches_step; exec
  | |- _ => idtac
  end.

Ltac take_off :=
  match goal with
  | |- context [seconds_before (env_now ?e ?h) ?i] =>
      let last := fresh "last" in
      let Hlast := fresh "Hlast" in
      destruct (start_fits h eq_refl) as [last Hlast]; rewrite Hlast
  end.

Lemma armed_start (url : string) :
  reaches env (create url interval) (armed 0).
Proof.
  apply reaches_step. exec. ask_opened.
  - apply reaches_step. exec. take_off. apply reaches_here.
    eexists. repeat split; cbn; congruence.
  - do 2 (apply reaches_step; exec). take_off. apply reaches_here.
    eexists. repeat split; cbn; congruence.
Qed.

Lemma armed_next (k : nat) (g : generator) :
  (k < 4)%nat -> armed k g -> reaches env g (armed (S k)).
Proof.
  intros Hk (l & Hc & Hf & Hs & Hcap & Hr & Hy & Hp).
  destruct g as [c [[url [h|] T captured] tr]]; simpl in *;
    [clear Hcap|congruence]. subst c captured.
  assert (Hfail : read_ok (env_read env tr) = false)
    by (apply first_five_fail; lia).
  assert (Hlt : (5 <=? S (fail_count l))%nat = false)
    by (apply Nat.leb_gt; lia).
  apply reaches_step.
  destruct (env_read env tr) as [[] [f|]] eqn:Er; try discriminate Hfail;
    exec; rewrite Er; exec; ask_opened;
    wake;
    (apply reaches_step; exec; rewrite Hlt; cbn [andb]; exec);
    apply reaches_here; exists (failed l);
    unfold reads_of, probes, count in *; simpl;
    repeat split; auto; try congruence; try lia.
Qed.

Lemma armed_handoff (g : generator) :
  armed 4 g -> reaches env g (handed_off 5).
Proof.
  intros (l & Hc & Hf & Hs & Hcap & Hr & Hy & Hp).
  destruct g as [c [[url [h|] T captured] tr]]; simpl in *;
    [clear Hcap|congruence]. subst c captured.
  assert (Hfail : read_ok (env_read env tr) = false)
    by (apply first_five_fail; lia).
  apply reaches_step.
  destruct (env_read env tr) as [[] [f|]] eqn:Er; try discriminate Hfail;
    exec; rewrite Er; exec; ask_opened;
    wake;
    (apply reaches_step; exec; rewrite Hf; cbn [Nat.leb andb negb]; exec);
    apply reaches_here;
    repeat (case_match; simplify_eq/=);
    unfold handed_off, reads_of, probes, count in *; simpl;
    repeat split; auto; try congruence; try lia.
Qed.

End Handoff.

(** ** Once handed off, for ever handed off *)

Lemma off_step (env : environment) (k : nat) (g : generator) :
  off k g -> off k (step env g).
Proof.
  destruct g as [c [[url cp interval captured] tr]]. unfold off.
  destruct c as [|u s|s| | | | | | | | | |]; try destruct s;
    simpl; intros (Hc & Hr & Hy); try discriminate Hc;
    exec; repeat (case_match; simplify_eq/=); exec;
    unfold reads_of, count in *; simpl;
    repeat split; auto; constructor; auto.
Qed.

(** A control point outside [execute_capture]'s own loop is one of
    [capture_generic_frames], or the generator has ended. *)
Lemma outside_primary (c : control) :
  in_primary c = false -> in_fallback c = true \/ ended c = true.
Proof.
  destruct c as [|u s|s| | | | | | | | | |]; try destruct s; simpl; auto.
Qed.

(** C1. When the first five reads of the primary loop fail (five
    consecutive failures while [successfully_captured] is false), in a run
    that gets to read at all (the interval can be taken off the first
    clock reading, at lines 83-85), the run reaches a point where exactly five primary reads have been made, no
    frame has been yielded and [capture_generic_frames] has been entered
    (its bandwidth probe has run); from that point on, for ever, the
    control never is in the primary loop again (it is in
    [capture_generic_frames], or the generator has ended), the primary
    loop makes no further read, and every yielded frame is a fallback
    frame. *)
Theorem handoff_after_five_failures (env : environment) (url : string)
    (interval : Z) :
  (forall hist, clock_readings hist = 0%nat ->
                is_Some (seconds_before (env_now env hist) interval)) ->
  (forall hist, (reads_of Primary hist < 5)%nat ->
                read_ok (env_read env hist) = false) ->
  exists n,
    let g := run env n (create url interval) in
    in_primary (ctrl g) = false /\
    reads_of Primary (trace (mach g)) = 5%nat /\
    probes (trace (mach g)) = 1%nat /\
    yields (trace (mach g)) = [] /\
    forall m,
      let g' := run env m g in
      in_primary (ctrl g') = false /\
      (in_fallback (ctrl g') = true \/ ended (ctrl g') = true) /\
      reads_of Primary (trace (mach g')) = 5%nat /\
      all_fallback (yields (trace (mach g'))).
Proof.
  intros Hfits Hfail.
  assert (Hreach : reaches env (create url interval) (handed_off 5)).
  { eapply reaches_trans; [apply (armed_start env interval Hfits)|]. intros g0 H0.
    eapply reaches_trans; [apply (armed_next env Hfail 0 g0); [lia|exact H0]|].
    intros g1 H1.
    eapply reaches_trans; [apply (armed_next env Hfail 1 g1); [lia|exact H1]|].
    intros g2 H2.
    eapply reaches_trans; [apply (armed_next env Hfail 2 g2); [lia|exact H2]|].
    intros g3 H3.
    eapply reaches_trans; [apply (armed_next env Hfail 3 g3); [lia|exact H3]|].
    intros g4 H4. apply (armed_handoff env Hfail g4 H4). }
  destruct Hreach as [n (Hc & Hr & Hp & Hy)].
  exists n. cbv zeta. do 4 (split; [assumption|]). intros m.
  destruct (run_invariant env (off 5) (off_step env 5) m
              (run env n (create url interval))) as (Hc' & Hr' & Hy').
  { repeat split; try assumption. rewrite Hy. constructor. }
  auto using outside_primary.
Qed.

Lemma handoff_after_five_failures_witness :
  exists n,
    let g := run Scenario.dead_primary n (create "rtsp://cam" 15) in
    in_primary (ctrl g) = false /\
    reads_of Primary (trace (mach g)) = 5%nat /\
    probes (trace (mach g)) = 1%nat /\
    yields (trace (mach g)) = [] /\
    forall m,
      let g' := run Scenario.dead_primary m g in
      in_primary (ctrl g') = false /\
      (in_fallback (ctrl g') = true \/ ended (ctrl g') = true) /\
      reads_of Primary (trace (mach g')) = 5%nat /\
      all_fallback (yields (trace (mach g'))).
Proof.
  apply (handoff_after_five_failures Scenario.dead_primary "rtsp://cam" 15).
  - intros hist Hfirst. cbn [Scenario.dead_primary env_now].
    unfold Scenario.clock. rewrite Hfirst. vm_compute. eauto.
  - intros hist H. simpl.
    destruct (Nat.ltb_spec (reads_of Primary hist) 5) as [_|Hge];
      [reflexivity | lia].
Defined.

(** ** A primary source that delivered once is never abandoned *)

Lemma well_formed_step (env : environment) (g : generator) :
  well_formed g -> well_formed (step env g).
Proof.
  destruct g as [c [[url cp interval captured] tr]]. unfold well_formed.
  destruct c as [|u s|s| | | | | | | | | |]; try destruct s;
    simpl; intros Hw; exec; repeat (case_match; simplify_eq/=); exec;
    simpl; auto; congruence.
Qed.

Lemma unread_step (env : environment) (g : generator) :
  unread g -> unread (step env g).
Proof.
  destruct g as [c [[url cp interval captured] tr]]. unfold unread.
  destruct c as [|u s|s| | | | | | | | | |]; try destruct s;
    simpl; intros Hu; exec; repeat (case_match; simplify_eq/=); exec;
    simpl; intros Hp Hl; try discriminate Hp; try discriminate Hl;
    apply Hu; reflexivity.
Qed.

Lemma in_primary_loop_in_primary (c : control) :
  in_primary_loop c = true -> in_primary c = true.
Proof.
  destruct c as [|u s|s| | | | | | | | | |]; try destruct s;
    simpl; intros H; try discriminate H; reflexivity.
Qed.

Lemma proven_step (env : environment) (url : string) (p : nat) (g : generator) :
  proven url p g -> proven url p (step env g).
Proof.
  intros (Hw & Hc & Hs & Hu & Hp).
  split; [now apply well_formed_step|]. revert Hw Hc Hs Hu Hp.
  destruct g as [c [[url' cp interval captured] tr]]. unfold well_formed.
  destruct c as [|u s|s| | | | | | | | | |]; try destruct s;
    simpl; intros Hw Hc Hs Hu Hp; try discriminate Hc; subst;
    exec; rewrite ?Bool.andb_false_r;
    repeat (case_match; simplify_eq/=); exec;
    unfold probes, count in *; simpl; auto; congruence.
Qed.

(** What a failed read does in the primary loop: the capture is released
    and a new one is opened on the primary URL, and the failure is
    counted. *)
Lemma primary_failure_reconnects (env : environment) (g : generator)
    (l : locals) (h : handle) :
  ctrl g = PrimaryHead l ->
  cap (self (mach g)) = Some h ->
  read_ok (env_read env (trace (mach g))) = false ->
  let r := env_read env (trace (mach g)) in
  let released := EvRelease h :: EvRead Primary h (fst r) (snd r) :: trace (mach g) in
  let opened := env_isOpened env released in
  let reopened := EvOpen (opens (trace (mach g))) (stream_url (self (mach g))) opened
                    :: released in
  step env g =
  {| ctrl := if opened then InitDone (AtReconnect (failed l))
             else InitSleep (stream_url (self (mach g))) (AtReconnect (failed l));
     mach := {| self := set_cap (Some (opens (trace (mach g)))) (self (mach g));
                trace := if opened then reopened else EvSleep 5000 :: reopened |} |}.
Proof.
  destruct g as [c [[url cp interval captured] tr]]; simpl.
  intros -> -> Hfail.
  destruct (env_read env tr) as [[] [f|]] eqn:Er; try discriminate Hfail;
    exec; rewrite Er; exec;
    match goal with
    | |- context [env_isOpened ?e ?t] => destruct (env_isOpened e t)
    end; reflexivity.
Qed.

(** C2. Once a read of the primary loop has succeeded
    ([successfully_captured] is true while the control is in the primary
    loop), the run stays in the primary loop for ever: it never enters
    [capture_generic_frames] (the bandwidth probe never runs) and never
    ends, whatever the reads return.  Every failed read there releases the
    capture and opens a new one on the primary URL. *)
Theorem no_handoff_after_success (env : environment) (url : string)
    (interval : Z) (k : nat) :
  let g := run env k (create url interval) in
  in_primary (ctrl g) = true ->
  successfully_captured (self (mach g)) = true ->
  forall n,
    let g' := run env n g in
    in_primary (ctrl g') = true /\
    probes (trace (mach g')) = probes (trace (mach g)) /\
    forall l h,
      ctrl g' = PrimaryHead l ->
      cap (self (mach g')) = Some h ->
      read_ok (env_read env (trace (mach g'))) = false ->
      exists opened r,
        in_primary (ctrl (step env g')) = true /\
        cap (self (mach (step env g'))) = Some (opens (trace (mach g'))) /\
        trace (mach (step env g'))
        = (if opened : bool then [] else [EvSleep 5000])
          ++ EvOpen (opens (trace (mach g'))) url opened
          :: EvRelease h :: EvRead Primary h (fst r) (snd r)
          :: trace (mach g').
Proof.
  intros g Hc Hs n g'.
  assert (Hw : well_formed g).
  { apply run_invariant; [apply well_formed_step | exact I]. }
  assert (Hloop : in_primary_loop (ctrl g) = true).
  { assert (Hu : unread g).
    { apply run_invariant; [apply unread_step|]. intros _ _. reflexivity. }
    destruct (in_primary_loop (ctrl g)) eqn:E; [reflexivity|].
    rewrite (Hu Hc E) in Hs. discriminate Hs. }
  assert (Hu : stream_url (self (mach g)) = url).
  { apply (run_invariant env (fun g => stream_url (self (mach g)) = url));
      [|reflexivity].
    intros g0 H0. now rewrite (proj1 (step_configuration env g0)). }
  assert (Hp : proven url (probes (trace (mach g))) g').
  { apply (run_invariant env (proven url (probes (trace (mach g))))
             (proven_step env url _)).
    repeat split; assumption. }
  destruct Hp as (Hw' & Hc' & Hs' & Hu' & Hp').
  apply in_primary_loop_in_primary in Hc'.
  repeat split; try assumption.
  intros l h Hl Hh Hfail.
  pose proof (primary_failure_reconnects env g' l h Hl Hh Hfail) as Hstep.
  cbv zeta in Hstep. rewrite Hu' in Hstep.
  match type of Hstep with
  | context [env_isOpened ?e ?t] =>
      exists (env_isOpened e t), (env_read env (trace (mach g')));
      rewrite Hstep; destruct (env_isOpened e t)
  end; repeat split; reflexivity.
Qed.

Lemma no_handoff_after_success_witness :
  let g := run Scenario.one_frame 3 (create "rtsp://cam" 15) in
  let g' := run Scenario.one_frame 2 g in
  in_primary (ctrl g') = true /\
  probes (trace (mach g')) = 0%nat /\
  exists opened r,
    in_primary (ctrl (step Scenario.one_frame g')) = true /\
    cap (self (mach (step Scenario.one_frame g'))) = Some 1%nat /\
    trace (mach (step Scenario.one_frame g'))
    = (if opened : bool then [] else [EvSleep 5000])
      ++ EvOpen 1%nat "rtsp://cam" opened
      :: EvRelease 0%nat :: EvRead Primary 0%nat (fst r) (snd r)
      :: trace (mach g').
Proof.
  intros g g'.
  destruct (no_handoff_after_success Scenario.one_frame "rtsp://cam" 15 3
              eq_refl eq_refl 2) as (Hc & Hp & Hre).
  split; [exact Hc|]. split; [exact Hp|].
  apply (Hre {| last_process_time := 1000000; fail_count := 0 |} 0%nat);
    reflexivity.
Defined.

(** ** Resolution failures in the fallback loop *)

(** A quality selection probes the bandwidth once, yields nothing and does
    not touch the engine. *)
Lemma select_quality_effects (env : environment) (m m' : machine)
    (r : option (option string)) :
  select_quality_based_on_speed env m = (r, m') ->
  self m' = self m /\
  yields (trace m') = yields (trace m) /\
  probes (trace m') = S (probes (trace m)).
Proof.
  destruct m as [e tr]. exec. destruct (env_speed env tr); intros H;
    simplify_eq/=; repeat split; reflexivity.
Qed.

(** C8. When the quality selection at the beginning of
    [capture_generic_frames] returns no usable URL, the generator finishes
    at once and no frame is ever yielded.  When a re-resolution inside the
    loop returns no usable URL, the loop goes on: the generator is back at
    the loop head (not finished), the next iteration fails again without a
    capture, backs off, and selects a quality once more. *)
Theorem fallback_resolution_failure (env : environment) :
  (forall m r m',
     select_quality_based_on_speed env m = (Some r, m') ->
     usable r = None ->
     capture_generic_frames_start env m = (Finished, m') /\
     yields (trace m') = yields (trace m) /\
     forall n, run env n {| ctrl := Finished; mach := m' |}
               = {| ctrl := Finished; mach := m' |}) /\
  (forall g l,
     ctrl g = FallbackHead l ->
     successfully_captured (self (mach g)) = false ->
     (4 <= fail_count l)%nat ->
     cap (self (mach g)) = None \/ read_ok (env_read env (trace (mach g))) = false ->
     let g1 := step env g in
     ctrl g1 = FallbackBackoff (failed l) /\
     cap (self (mach g1)) = None /\
     forall r m',
       select_quality_based_on_speed env (mach g1) = (Some r, m') ->
       usable r = None ->
       let g2 := step env g1 in
       let g3 := step env g2 in
       g2 = {| ctrl := FallbackHead (failed l); mach := m' |} /\
       g3 = {| ctrl := FallbackBackoff (failed (failed l));
               mach := {| self := self m'; trace := EvSleep 5000 :: trace m' |} |} /\
       probes (trace (mach (step env g3))) = S (S (probes (trace (mach g))))).
Proof.
  split.
  - intros m r m' Hsel Hr.
    unfold capture_generic_frames_start, bind. rewrite Hsel, Hr.
    repeat split; [|intros n; apply (ended_run env); reflexivity].
    apply (select_quality_effects env m m' _ Hsel).
  - intros [c [[url cp interval captured] tr]] l Hc Hs Hl Hread g1.
    simpl in Hc, Hs, Hread. subst c captured.
    assert (Hge : (5 <=? S (fail_count l))%nat = true)
      by (apply Nat.leb_le; lia).
    assert (Hge' : (5 <=? S (S (fail_count l)))%nat = true)
      by (apply Nat.leb_le; lia).
    assert (Hg1 : ctrl g1 = FallbackBackoff (failed l) /\
                  self (mach g1) = set_cap None
                    {| stream_url := url; cap := cp; capture_interval := interval;
                       successfully_captured := false |} /\
                  probes (trace (mach g1)) = probes tr).
    { subst g1. destruct cp as [h|].
      - destruct Hread as [Hread|Hread]; [discriminate Hread|].
        simpl in Hread.
        destruct (env_read env tr) as [[] [f|]] eqn:Er; try discriminate Hread;
          exec; rewrite Er; exec; rewrite Hge; exec; repeat split.
      - exec. rewrite Hge. exec. repeat split. }
    destruct Hg1 as (Hc1 & Hs1 & Hp1).
    split; [exact Hc1|]. split; [now rewrite Hs1|].
    intros r m' Hsel Hr g2 g3.
    destruct (select_quality_effects env _ _ _ Hsel) as (Hself & _ & Hp).
    assert (Hg2 : g2 = {| ctrl := FallbackHead (failed l); mach := m' |}).
    { subst g2. destruct g1 as [c1 m1]; simpl in Hc1, Hsel. subst c1.
      unfold step, resume, fallback_reresolve, bind; cbn [ctrl mach].
      now rewrite Hsel, Hr. }
    split; [exact Hg2|].
    assert (Hg3 : g3 = {| ctrl := FallbackBackoff (failed (failed l));
                          mach := {| self := self m';
                                     trace := EvSleep 5000 :: trace m' |} |}).
    { subst g3. rewrite Hg2. destruct m' as [e' tr']; simpl in Hself.
      rewrite Hs1 in Hself. subst e'. exec. rewrite Hge'. exec. reflexivity. }
    split; [exact Hg3|].
    rewrite Hg3. destruct m' as [e' tr']; simpl in Hp.
    clear Hg2 Hg3 Hread. exec.
    repeat (case_match; simplify_eq/=); exec;
      unfold probes, count in *; simpl; lia.
Qed.

Lemma fallback_resolution_failure_witness :
  let env := Scenario.unresolvable in
  let m := {| self := set_cap (Some 5%nat) (init "rtsp://cam" 15); trace := [] |} in
  fst (capture_generic_frames_start env m) = Finished /\
  yields (trace (snd (capture_generic_frames_start env m))) = [] /\
  let f := {| ctrl := FallbackHead {| last_process_time := 0; fail_count := 4 |};
              mach := {| self := set_cap (Some 0%nat) (init "rtsp://cam" 15);
                         trace := [] |} |} in
  ctrl (step env f) = FallbackBackoff {| last_process_time := 0; fail_count := 5 |} /\
  ctrl (step env (step env f))
  = FallbackHead {| last_process_time := 0; fail_count := 5 |} /\
  ctrl (step env (step env (step env f)))
  = FallbackBackoff {| last_process_time := 0; fail_count := 6 |} /\
  probes (trace (mach (step env (step env (step env (step env f)))))) = 2%nat.
Proof.
  intros env m.
  destruct (fallback_resolution_failure env) as [Hstart Hloop].
  assert (Hsel : select_quality_based_on_speed env m
                 = (Some None, snd (select_quality_based_on_speed env m)))
    by (vm_compute; reflexivity).
  destruct (Hstart m None _ Hsel eq_refl) as (Hfin & Hy & _).
  split; [now rewrite Hfin|]. split; [now rewrite Hfin|].
  intros f.
  destruct (Hloop f {| last_process_time := 0; fail_count := 4 |}
              eq_refl eq_refl (le_n 4) (or_intror eq_refl))
    as (Hc1 & _ & Hnext).
  assert (Hsel' : select_quality_based_on_speed env (mach (step env f))
                  = (Some None,
                     snd (select_quality_based_on_speed env (mach (step env f)))))
    by (vm_compute; reflexivity).
  destruct (Hnext None _ Hsel' eq_refl) as (Hg2 & Hg3 & Hp).
  split; [exact Hc1|].
  split; [now rewrite Hg2|].
  split; [now rewrite Hg3|].
  exact Hp.
Defined.

(** ** The fallback loop after its first success *)

Lemma settled_step (env : environment) (cp : option handle) (k : nat)
    (g : generator) :
  settled cp k g -> settled cp k (step env g).
Proof.
  destruct g as [c [[url cp' interval captured] tr]]. unfold settled.
  destruct c as [|u s|s| | | | | | | | | |]; try destruct s;
    simpl; intros (Hc & Hs & Hcp & Hk); try discriminate Hc; subst;
    exec; rewrite ?Bool.andb_false_r;
    repeat (case_match; simplify_eq/=); exec;
    unfold recoveries, count in *; simpl; auto.
Qed.

Lemma spinning_step (env : environment) (l : locals) (n : nat)
    (tr0 : list event) (g : generator) :
  (forall evs, read_ok (env_read env (evs ++ tr0)) = false) ->
  spinning l n tr0 g -> spinning l (S n) tr0 (step env g).
Proof.
  intros Hfail. destruct g as [c [[url cp interval captured] tr]].
  unfold spinning; simpl. intros (-> & -> & Hy & evs & ->).
  pose proof (Hfail evs) as Hr.
  replace (fail_count l + S n)%nat with (S (fail_count l + n)) by lia.
  destruct cp as [h|];
    [destruct (env_read env (evs ++ tr0)) as [[] [f|]] eqn:Er;
       try discriminate Hr|];
    exec; rewrite ?Er; exec; rewrite ?Bool.andb_false_r; exec;
    repeat split; auto;
    first [now exists evs | now eexists (_ :: evs)].
Qed.

(** C10. In the fallback loop, once [successfully_captured] is true, no
    read failure (indeed nothing at all) ever leads to a recovery action:
    along the whole run the control stays in the loop body, the capture is
    the same, and no capture is released or opened, no bandwidth probe and
    no tier resolution is made, no back-off sleep is taken.  If moreover
    every read from then on fails, each step is one more failed iteration: the loop is
    at its head with [fail_count] one higher, and no frame is yielded. *)
Theorem fallback_no_recovery_after_success (env : environment)
    (g : generator) (l : locals) :
  ctrl g = FallbackHead l ->
  successfully_captured (self (mach g)) = true ->
  (forall n,
     let g' := run env n g in
     in_fallback_loop (ctrl g') = true /\
     cap (self (mach g')) = cap (self (mach g)) /\
     recoveries (trace (mach g')) = recoveries (trace (mach g))) /\
  ((forall evs, read_ok (env_read env (evs ++ trace (mach g))) = false) ->
   forall n,
     let g' := run env n g in
     ctrl g' = FallbackHead {| last_process_time := last_process_time l;
                               fail_count := fail_count l + n |} /\
     yields (trace (mach g')) = yields (trace (mach g))).
Proof.
  intros Hc Hs. split.
  - intros n g'.
    assert (H : settled (cap (self (mach g))) (recoveries (trace (mach g))) g').
    { apply (run_invariant env _ (settled_step env _ _)).
      repeat split; try assumption. now rewrite Hc. }
    destruct H as (H1 & _ & H3 & H4). auto.
  - intros Hfail n g'. subst g'.
    assert (H : forall k g0, spinning l k (trace (mach g)) g0 ->
                spinning l (k + n) (trace (mach g)) (run env n g0)).
    { induction n as [|n IH]; intros k g0 H0; simpl.
      - now replace (k + 0)%nat with k by lia.
      - replace (k + S n)%nat with (S k + n)%nat by lia.
        apply IH. now apply spinning_step. }
    destruct (H 0%nat g) as (H1 & _ & H3 & _); [|auto].
    repeat split; try assumption; [|now exists []].
    rewrite Hc. destruct l; simpl. now rewrite Nat.add_0_r.
Qed.

Lemma count_app (p : event -> bool) (tr tr' : list event) :
  count p (tr ++ tr') = (count p tr + count p tr')%nat.
Proof. unfold count. now rewrite List.filter_app, length_app. Qed.

Lemma fallback_no_recovery_after_success_witness :
  let env := Scenario.one_fallback_frame in
  let g := run env 16 (create "rtsp://cam" 0) in
  ctrl g = FallbackHead {| last_process_time := 2000000; fail_count := 0 |} /\
  let g' := run env 40 g in
  in_fallback_loop (ctrl g') = true /\
  cap (self (mach g')) = Some 6%nat /\
  recoveries (trace (mach g')) = recoveries (trace (mach g)) /\
  ctrl g' = FallbackHead {| last_process_time := 2000000; fail_count := 40 |} /\
  yields (trace (mach g')) = [(Fallback, 2000000)].
Proof.
  intros env g.
  assert (Hc : ctrl g = FallbackHead {| last_process_time := 2000000; fail_count := 0 |})
    by (vm_compute; reflexivity).
  assert (Hs : successfully_captured (self (mach g)) = true)
    by (vm_compute; reflexivity).
  split; [exact Hc|].
  destruct (fallback_no_recovery_after_success env g _ Hc Hs) as [Hany Hfail].
  destruct (Hany 40%nat) as (H1 & H2 & H3).
  destruct (Hfail) with (n := 40%nat) as (H4 & H5).
  { intros evs. unfold env, Scenario.one_fallback_frame; cbn [env_read].
    unfold reads_of. rewrite (count_app (is_read Fallback)).
    replace (count (is_read Fallback) (trace (mach g))) with 1%nat
      by (vm_compute; reflexivity).
    now rewrite Nat.add_1_r. }
  split; [exact H1|].
  split; [rewrite H2; vm_compute; reflexivity|].
  split; [exact H3|].
  split; [exact H4|]. rewrite H5. vm_compute. reflexivity.
Defined.

(** ** Captures held by the engine *)

Lemma balanced_step (env : environment) (g : generator) :
  balanced g -> balanced (step env g).
Proof.
  destruct g as [c [[url cp interval captured] tr]]. unfold balanced.
  destruct c as [|u s|s| | | | | | | | | |]; try destruct s;
    simpl; intros [Hn Hb];
    try specialize (Hn eq_refl); try specialize (Hb eq_refl); subst;
    exec; repeat (case_match; simplify_eq/=); exec;
    simpl; (split; [intros Hc; discriminate Hc|]);
    intros Hp; try discriminate Hp;
    unfold opens, releases, count in *; simpl in *; lia.
Qed.

Lemma primary_loop_balanced (env : environment) (url : string)
    (interval : Z) (n : nat) :
  balanced (run env n (create url interval)).
Proof.
  apply run_invariant; [apply balanced_step|]. split; reflexivity.
Qed.

(** C6 (the code departs from the claim at the hand-off).  On a primary
    stream whose first five reads fail, the fifth failure releases capture
    4 and opens capture 5 on the primary URL (lines 102-103) before the
    hand-off is decided (line 105); [capture_generic_frames] then opens
    capture 6 on the selected tier (line 209) without releasing capture 5.
    Two captures are open from then on: seven have been opened and five
    released, and the engine only remembers the last one. *)
Theorem handoff_leaves_primary_capture_open :
  let env := Scenario.dead_primary in
  let before := run env 11 (create "rtsp://cam" 15) in
  let g := run env 12 (create "rtsp://cam" 15) in
  ctrl before = InitDone (AtReconnect {| last_process_time := -15000000;
                                         fail_count := 5 |}) /\
  open_handles (trace (mach before)) = [5%nat] /\
  ctrl g = InitDone AtFallbackStart /\
  hd_error (trace (mach g)) = Some (EvOpen 6%nat "http://cdn/480" true) /\
  In (EvOpen 5%nat "rtsp://cam" true) (trace (mach g)) /\
  open_handles (trace (mach g)) = [6%nat; 5%nat] /\
  opens (trace (mach g)) = 7%nat /\
  releases (trace (mach g)) = 5%nat /\
  cap (self (mach g)) = Some 6%nat /\
  open_handles (trace (mach (run env 40 g))) = [6%nat; 5%nat].
Proof.
  vm_compute. repeat split; try reflexivity.
  do 3 right. left. reflexivity.
Qed.

(** ** Cancellation *)

(** A cancelled generator yields nothing more and does nothing more. *)
Lemma cancel_is_final (env : environment) (g : generator) (n : nat) :
  suspended (ctrl g) = true ->
  run env n (cancel g) = {| ctrl := Closed; mach := mach g |}.
Proof.
  intros H. unfold cancel. rewrite H. now apply ended_run.
Qed.

(** C5 (the code departs from the claim).  A healthy stream is read once
    and the frame is yielded; the generator is suspended at the [yield]
    holding capture 0.  Cancelling it there closes the generator with the
    capture still held by the engine and not released: the trace is
    unchanged, it contains no release, and capture 0 is still open.  No
    frame is yielded after the cancellation. *)
Theorem cancel_does_not_release :
  let env := Scenario.healthy in
  let g := run env 3 (create "rtsp://cam" 15) in
  ctrl g = PrimaryYield {| last_process_time := 1000000; fail_count := 0 |} /\
  suspended (ctrl g) = true /\
  cap (self (mach g)) = Some 0%nat /\
  ctrl (cancel g) = Closed /\
  cap (self (mach (cancel g))) = Some 0%nat /\
  trace (mach (cancel g)) = trace (mach g) /\
  releases (trace (mach (cancel g))) = 0%nat /\
  open_handles (trace (mach (cancel g))) = [0%nat] /\
  yields (trace (mach (run env 40 (cancel g)))) = yields (trace (mach g)).
Proof.
  vm_compute. repeat split; reflexivity.
Qed.

(** ** The first frame of each loop *)

(** Where each loop sets [last_process_time]: the primary loop one
    interval before the present (lines 83-85), the fallback loop at the
    present (line 211). *)
Lemma loops_initial_gate (env : environment) (m : machine) :
  step env {| ctrl := InitDone AtStart; mach := m |}
  = {| ctrl := match seconds_before (env_now env (trace m))
                       (capture_interval (self m)) with
               | Some last => PrimaryHead {| last_process_time := last;
                                             fail_count := 0 |}
               | None => Raised OverflowError
               end;
       mach := {| self := self m; trace := EvNow (env_now env (trace m)) :: trace m |} |}
  /\
  step env {| ctrl := InitDone AtFallbackStart; mach := m |}
  = {| ctrl := FallbackHead
                 {| last_process_time := env_now env (trace m); fail_count := 0 |};
       mach := {| self := self m; trace := EvNow (env_now env (trace m)) :: trace m |} |}.
Proof.
  split; [|reflexivity]. destruct m as [e tr]. exec.
  now destruct (seconds_before (env_now env tr) (capture_interval e)).
Qed.

(** C7 (the code departs from the claim in the fallback loop).  With an
    interval of 15 seconds, the fallback loop starts at second 1 and sets
    [last_process_time] to that very moment, not to 15 seconds earlier.
    Its first read succeeds at second 2 and the frame is dropped: the loop
    goes to its idle sleep and nothing has been yielded.  The primary loop
    of the same engine had started with [last_process_time] 15 seconds
    before its start. *)
Theorem fallback_first_frame_dropped :
  let env := Scenario.dead_primary in
  let p := run env 2 (create "rtsp://cam" 15) in
  let g := run env 13 (create "rtsp://cam" 15) in
  ctrl p = PrimaryHead {| last_process_time := 0 - 15 * 1000000; fail_count := 0 |} /\
  hd_error (trace (mach p)) = Some (EvNow 0) /\
  ctrl g = FallbackHead {| last_process_time := 1000000; fail_count := 0 |} /\
  hd_error (trace (mach g)) = Some (EvNow 1000000) /\
  read_ok (env_read env (trace (mach g))) = true /\
  ctrl (step env g) = FallbackIdle {| last_process_time := 1000000; fail_count := 0 |} /\
  hd_error (trace (mach (step env g))) = Some (EvSleep 10) /\
  yields (trace (mach (step env g))) = [].
Proof.
  vm_compute. repeat split; reflexivity.
Qed.

(** ** The book-keeping of the primary loop *)

Lemma holding_step (env : environment) (g : generator) :
  holding g -> holding (step env g).
Proof.
  destruct g as [c [[url cp interval captured] tr]]. unfold holding.
  destruct c as [|u s|s| | | | | | | | | |]; try destruct s;
    simpl; intros Hh; exec;
    repeat (case_match; simplify_eq/=); exec; simpl;
    intros Hp Hc; try discriminate Hp; try congruence;
    try (apply Hh; congruence).
Qed.

Lemma tallied_step (env : environment) (g : generator) :
  tallied g -> tallied (step env g).
Proof.
  intros (Hw & Hu & Ht). split; [now apply holding_step|].
  split; [now apply unread_step|]. revert Hw Hu Ht.
  destruct g as [c [[url cp interval captured] tr]]. unfold holding, unread, overflowed.
  destruct c as [|u s|s| | | | | | | | | |]; try destruct s;
    simpl; intros Hw Hu Ht;
    try (assert (cp <> None) by (apply Hw; congruence));
    try (assert (captured = false) by (apply Hu; reflexivity));
    exec;
    repeat (case_match; simplify_eq/=); exec; simpl;
    repeat match goal with
    | H : env_read ?e ?t = _ |- context [env_read ?e ?t] => rewrite H
    end;
    unfold reads_of, deliveries, count in *; simpl in *;
    repeat match goal with
    | H : (_ <=? _)%nat = true |- _ => apply Nat.leb_le in H
    | H : (_ <=? _)%nat = false |- _ => apply Nat.leb_gt in H
    | H : _ && _ = true |- _ => apply andb_prop in H; destruct H
    | H : _ && _ = false |- _ => apply Bool.andb_false_iff in H
    | H : negb _ = true |- _ => apply Bool.negb_true_iff in H
    | H : negb _ = false |- _ => apply Bool.negb_false_iff in H
    end;
    try congruence; try tauto;
    try (right; split; [split; [reflexivity|eauto] | intuition (try congruence; lia)]);
    intuition (try congruence; try lia).
Qed.

Lemma run_tallied (env : environment) (url : string) (interval : Z) (n : nat) :
  tallied (run env n (create url interval)).
Proof.
  apply run_invariant; [apply tallied_step|].
  split; [intros _ Hc; now destruct Hc|].
  split; [intros _ _; reflexivity|]. simpl. right. repeat split; lia.
Qed.

Lemma run_interval (env : environment) (url : string) (interval : Z) (n : nat) :
  capture_interval (self (mach (run env n (create url interval)))) = interval.
Proof.
  apply (run_invariant env (fun g => capture_interval (self (mach g)) = interval));
    [|reflexivity].
  intros g0 H0. now rewrite (proj2 (step_configuration env g0)).
Qed.

(** X1. The run hands off to [capture_generic_frames] only after exactly
    five reads of the primary loop, none of which delivered a frame.  The
    only other way out of [execute_capture]'s own loop is the
    [OverflowError] of lines 83-85, before any read: the generator has
    then ended right after its first clock reading, off which the interval
    could not be taken. *)
Theorem fallback_only_after_five_failures (env : environment) (url : string)
    (interval : Z) (n : nat) :
  let g := run env n (create url interval) in
  (in_fallback (ctrl g) = true ->
   reads_of Primary (trace (mach g)) = 5%nat /\
   deliveries Primary (trace (mach g)) = 0%nat) /\
  (in_primary (ctrl g) = false ->
   (reads_of Primary (trace (mach g)) = 5%nat /\
    deliveries Primary (trace (mach g)) = 0%nat) \/
   (ctrl g = Raised OverflowError /\
    reads_of Primary (trace (mach g)) = 0%nat /\
    exists t, hd_error (trace (mach g)) = Some (EvNow t) /\
              seconds_before t interval = None)).
Proof.
  intros g.
  destruct (run_tallied env url interval n) as (_ & _ & H). fold g in H.
  pose proof (run_interval env url interval n) as HT. fold g in HT.
  assert (Hout : in_primary (ctrl g) = false ->
                 (reads_of Primary (trace (mach g)) = 5%nat /\
                  deliveries Primary (trace (mach g)) = 0%nat) \/
                 (ctrl g = Raised OverflowError /\
                  reads_of Primary (trace (mach g)) = 0%nat /\
                  exists t, hd_error (trace (mach g)) = Some (EvNow t) /\
                            seconds_before t interval = None)).
  { intros Hc. rewrite Hc in H.
    destruct H as [(H5 & H0 & _)|[[Hr Ho] H0]]; [left; auto|].
    right. rewrite HT in Ho. auto. }
  split; [|exact Hout].
  intros Hf.
  assert (Hc : in_primary (ctrl g) = false).
  { destruct (ctrl g) as [|u s|s| | | | | | | | | |]; try destruct s;
      simpl in Hf |- *; congruence. }
  destruct (Hout Hc) as [H5|[Hr _]]; [exact H5|].
  rewrite Hr in Hf. discriminate Hf.
Qed.

Lemma fallback_only_after_five_failures_witness :
  let g := run Scenario.dead_primary 20 (create "rtsp://cam" 15) in
  reads_of Primary (trace (mach g)) = 5%nat /\
  deliveries Primary (trace (mach g)) = 0%nat.
Proof.
  apply (fallback_only_after_five_failures Scenario.dead_primary "rtsp://cam" 15 20).
  vm_compute. reflexivity.
Defined.

(** ** What the flag and the yields stand for *)

Ltac split_bools :=
  repeat match goal with
  | H : (_ <=? _)%nat = true |- _ => apply Nat.leb_le in H
  | H : (_ <=? _)%nat = false |- _ => apply Nat.leb_gt in H
  | H : (_ <=? _)%Z = true |- _ => apply Z.leb_le in H
  | H : (_ <=? _)%Z = false |- _ => apply Z.leb_gt in H
  | H : _ && _ = true |- _ => apply andb_prop in H; destruct H
  | H : _ && _ = false |- _ => apply Bool.andb_false_iff in H
  | H : negb _ = true |- _ => apply Bool.negb_true_iff in H
  | H : negb _ = false |- _ => apply Bool.negb_false_iff in H
  end.

Ltac use_reads :=
  repeat match goal with
  | H : env_read ?e ?t = _ |- context [env_read ?e ?t] => rewrite H
  end.

Lemma flagged_step (env : environment) (g : generator) :
  flagged g -> flagged (step env g).
Proof.
  destruct g as [c [[url cp interval captured] tr]]. unfold flagged.
  destruct c as [|u s|s| | | | | | | | | |]; try destruct s;
    simpl; intros Hf; exec;
    repeat (case_match; simplify_eq/=); exec; simpl; use_reads;
    unfold deliveries, count in *; simpl in *;
    try exact Hf; split; intros; try reflexivity; clear; lia.
Qed.

(** X2. [successfully_captured] is true exactly when some read, of the
    primary or of the fallback loop, has delivered a frame: the flag is
    set by the first delivery and never reset. *)
Theorem flag_records_a_delivery (env : environment) (url : string)
    (interval : Z) (n : nat) :
  let g := run env n (create url interval) in
  successfully_captured (self (mach g)) = true <->
  (0 < deliveries Primary (trace (mach g)) + deliveries Fallback (trace (mach g)))%nat.
Proof.
  intros g.
  apply (run_invariant env flagged (flagged_step env)).
  unfold flagged, deliveries, count; simpl. split; [discriminate | lia].
Qed.

Lemma sourced_step (env : environment) (g : generator) :
  sourced env g -> sourced env (step env g).
Proof.
  intros (Hj & Hs & Hc). split; [|split; [now apply stamped_step|]];
    revert Hj Hc; clear Hs.
  - destruct g as [c [[url cp interval captured] tr]].
    destruct c as [|u s|s| | | | | | | | | |]; try destruct s;
      simpl; intros Hj Hc; exec;
      repeat (case_match; simplify_eq/=); exec; simpl; use_reads; simpl;
      try exact Hj; split; eauto.
  - destruct g as [c [[url cp interval captured] tr]].
    destruct c as [|u s|s| | | | | | | | | |]; try destruct s;
      simpl; intros Hj Hc; exec;
      repeat (case_match; simplify_eq/=); exec; simpl; use_reads;
      unfold deliveries, count in *; simpl in *; lia.
Qed.

(** X3. Every yield hands out the frame that the read just before it, by
    the same loop, delivered, for the clock reading taken between the
    two, and the timestamp it hands out is [timestamp()] of that reading;
    so no more frames are yielded than reads have delivered. *)
Theorem yields_come_from_reads (env : environment) (url : string)
    (interval : Z) (n : nat) :
  let tr := trace (mach (run env n (create url interval))) in
  justified tr /\
  stamped env tr /\
  (length (yields tr) <= deliveries Primary tr + deliveries Fallback tr)%nat.
Proof.
  apply (run_invariant env (sourced env) (sourced_step env)).
  split; [exact I | split; [exact I | unfold deliveries, count; simpl; lia]].
Qed.

(** ** The capture held by the primary loop *)

(** X4. Once started, [execute_capture]'s own loop holds exactly one
    capture at every control point: [self.cap] is set, and one more
    capture has been created than released. *)
Theorem primary_loop_holds_one_capture (env : environment) (url : string)
    (interval : Z) (n : nat) :
  let g := run env n (create url interval) in
  in_primary (ctrl g) = true -> ctrl g <> Created ->
  (exists h, cap (self (mach g)) = Some h) /\
  opens (trace (mach g)) = S (releases (trace (mach g))).
Proof.
  intros g Hp Hc.
  assert (Hh : holding g).
  { apply run_invariant; [apply holding_step|]. intros _ H. now destruct H. }
  assert (Hb : balanced g) by apply primary_loop_balanced.
  specialize (Hh Hp Hc). destruct Hb as [_ Hb]. specialize (Hb Hp).
  destruct (cap (self (mach g))) as [h|]; [|congruence].
  split; [eauto | lia].
Qed.

Lemma primary_loop_holds_one_capture_witness :
  let g := run Scenario.one_frame 30 (create "rtsp://cam" 15) in
  (exists h, cap (self (mach g)) = Some h) /\
  opens (trace (mach g)) = S (releases (trace (mach g))).
Proof.
  apply (primary_loop_holds_one_capture Scenario.one_frame "rtsp://cam" 15 30).
  - vm_compute. reflexivity.
  - vm_compute. discriminate.
Defined.

Lemma no_loop_head_init_step (env : environment) (g : generator) :
  holding g -> at_loop_head_init (ctrl g) = false ->
  at_loop_head_init (ctrl (step env g)) = false.
Proof.
  destruct g as [c [[url cp interval captured] tr]]. unfold holding.
  destruct c as [|u s|s| | | | | | | | | |]; try destruct s;
    simpl; intros Hh Hc; try discriminate Hc;
    try (assert (cp <> None) by (apply Hh; congruence)); exec;
    repeat (case_match; simplify_eq/=); exec; simpl; congruence.
Qed.

(** X5. The re-initialisation at the head of the primary loop (lines
    89-90) never runs: the loop head is never reached without a
    capture. *)
Theorem loop_head_never_reinitialises (env : environment) (url : string)
    (interval : Z) (n : nat) :
  let g := run env n (create url interval) in
  at_loop_head_init (ctrl g) = false /\
  forall l, ctrl g = PrimaryHead l -> cap (self (mach g)) <> None.
Proof.
  intros g.
  assert (H : holding g /\ at_loop_head_init (ctrl g) = false).
  { apply (run_invariant env
             (fun g => holding g /\ at_loop_head_init (ctrl g) = false)).
    - intros g0 [Hh Hc]. split; [now apply holding_step|].
      now apply no_loop_head_init_step.
    - split; [|reflexivity]. intros _ H. now destruct H. }
  destruct H as [Hh Hc]. split; [exact Hc|].
  intros l Hl. apply Hh; rewrite Hl; [reflexivity | discriminate].
Qed.

(** ** Exceptions *)

Lemma raised_where_step (env : environment) (g : generator) :
  well_formed g -> raised_where g -> raised_where (step env g).
Proof.
  destruct g as [c [[url cp interval captured] tr]].
  unfold well_formed, raised_where, overflowed.
  destruct c as [|u s|s| | | | | | | | | |]; try destruct s;
    simpl; intros Hw Hr; exec;
    repeat (case_match; simplify_eq/=); exec; simpl;
    intros e' Hc; try discriminate Hc; simplify_eq/=;
    try congruence; eauto 8.
Qed.

(** X6. Of what the engine does itself (captures, reads, the clock and
    [timestamp()] are taken not to raise), an exception leaves the
    generator in two ways only.  One is the [OverflowError] of lines
    83-85, when the interval cannot be taken off the first clock reading:
    nothing has been read then.  The other is a speed test that raises,
    since [check_internet_speed] is called before the [try] of
    [select_quality_based_on_speed]: whenever the run has ended in that
    exception, the last thing it did was the speed test; at the back-off
    of the fallback loop the exception leaves the generator at once,
    streamlink is not asked, and nothing is done afterwards.  The
    [AttributeError] of line 62 never occurs. *)
Theorem exceptions_that_end_the_run (env : environment) (url : string)
    (interval : Z) (n : nat) :
  let g := run env n (create url interval) in
  (forall e, ctrl g = Raised e ->
     (e = OverflowError /\
      reads_of Primary (trace (mach g)) = 0%nat /\
      exists t, hd_error (trace (mach g)) = Some (EvNow t) /\
                seconds_before t interval = None) \/
     (e = SpeedTestError /\
      hd_error (trace (mach g)) = Some (EvProbe None))) /\
  (ctrl g = InitDone AtStart ->
     seconds_before (env_now env (trace (mach g))) interval = None ->
     ctrl (step env g) = Raised OverflowError) /\
  (forall l, ctrl g = FallbackBackoff l ->
     env_speed env (trace (mach g)) = None ->
     step env g = {| ctrl := Raised SpeedTestError;
                     mach := {| self := self (mach g);
                                trace := EvProbe None :: trace (mach g) |} |} /\
     forall m, run env m (step env g) = step env g).
Proof.
  intros g.
  assert (H : well_formed g /\ raised_where g).
  { apply (run_invariant env (fun g => well_formed g /\ raised_where g)).
    - intros g0 [Hw Hr]. split; [now apply well_formed_step|].
      now apply raised_where_step.
    - split; [exact I|]. intros e H. discriminate H. }
  destruct (run_tallied env url interval n) as (_ & _ & Hfive). fold g in Hfive.
  pose proof (run_interval env url interval n) as HT. fold g in HT.
  destruct H as [_ Hr]. clearbody g. split; [|split].
  - intros e He. destruct (Hr e He) as [[-> Ho]|Hs]; [left|right; exact Hs].
    split; [reflexivity|].
    rewrite He in Hfive. simpl in Hfive.
    destruct Ho as [_ (t & Ht & Hb)]. rewrite HT in Hb.
    destruct Hfive as [(_ & _ & Hne)|[_ H0]]; [now destruct Hne | eauto].
  - destruct g as [c [e tr]]; simpl in *. intros -> Hb. exec.
    now rewrite HT, Hb.
  - intros l Hl Hs.
    destruct g as [c [e tr]]; simpl in *. subst c.
    assert (Hstep : step env {| ctrl := FallbackBackoff l; mach := {| self := e; trace := tr |} |}
                    = {| ctrl := Raised SpeedTestError;
                         mach := {| self := e; trace := EvProbe None :: tr |} |}).
    { exec. now rewrite Hs. }
    split; [exact Hstep|]. intros m. rewrite Hstep. now apply ended_run.
Qed.

Lemma exceptions_that_end_the_run_witness :
  let env := {| env_isOpened := fun _ => true;
                env_read := fun _ => (false, None);
                env_now := Scenario.clock;
                env_timestamp := Scenario.utc;
                env_speed := fun hist => if (probes hist =? 0)%nat then Some (7 # 1)%Q else None;
                env_streams := fun _ => Some Scenario.tiers |} in
  let g := run env 18 (create "rtsp://cam" 15) in
  ctrl (step env g) = Raised SpeedTestError /\
  (forall m, run env m (step env g) = step env g) /\
  ctrl (run env 2 (create "rtsp://cam" 1000000000000)) = Raised OverflowError /\
  reads_of Primary (trace (mach (run env 2 (create "rtsp://cam" 1000000000000)))) = 0%nat.
Proof.
  intros env g.
  destruct (exceptions_that_end_the_run env "rtsp://cam" 15 18) as (_ & _ & H).
  assert (Hc : ctrl (run env 18 (create "rtsp://cam" 15))
               = FallbackBackoff {| last_process_time := 1000000; fail_count := 5 |})
    by (vm_compute; reflexivity).
  assert (Hs : env_speed env (trace (mach (run env 18 (create "rtsp://cam" 15)))) = None)
    by (vm_compute; reflexivity).
  destruct (H _ Hc Hs) as [Hstep Hstay].
  split; [unfold g; now rewrite Hstep|]. split; [exact Hstay|].
  destruct (exceptions_that_end_the_run env "rtsp://cam" 1000000000000 1)
    as (_ & Hover & _).
  assert (Hc1 : ctrl (run env 1 (create "rtsp://cam" 1000000000000)) = InitDone AtStart)
    by (vm_compute; reflexivity).
  assert (Hb : seconds_before
                 (env_now env (trace (mach (run env 1 (create "rtsp://cam" 1000000000000)))))
                 1000000000000 = None)
    by (vm_compute; reflexivity).
  assert (Hraised : ctrl (run env 2 (create "rtsp://cam" 1000000000000))
                    = Raised OverflowError).
  { change (run env 2 (create "rtsp://cam" 1000000000000))
      with (step env (run env 1 (create "rtsp://cam" 1000000000000))) at 1.
    rewrite run_step. exact (Hover Hc1 Hb). }
  split; [exact Hraised|].
  destruct (exceptions_that_end_the_run env "rtsp://cam" 1000000000000 2)
    as (Hwhy & _).
  destruct (Hwhy _ Hraised) as [(_ & H0 & _)|[Hne _]]; [exact H0 | discriminate Hne].
Defined.

(** ** The captures of a run *)

Lemma opens_cons (e : event) (tr : list event) :
  opens (e :: tr) = if is_open e then S (opens tr) else opens tr.
Proof. unfold opens, count. simpl. now destruct (is_open e). Qed.

Lemma safe_released_created (tr : list event) (h : handle) :
  safe tr -> released h tr = true -> (h < opens tr)%nat.
Proof.
  induction tr as [|e tr IH]; simpl; [discriminate|].
  intros [He Hs] Hr. rewrite opens_cons.
  apply orb_prop in Hr. destruct Hr as [Hr|Hr].
  - destruct e; simpl in Hr; try discriminate Hr.
    apply Nat.eqb_eq in Hr. subst. simpl. tauto.
  - specialize (IH Hs Hr). destruct (is_open e); lia.
Qed.

Lemma kept_quiet (c : option handle) (e : event) (tr : list event) :
  quiet e = true -> kept c tr -> kept c (e :: tr).
Proof.
  intros Hq [Hs Hc]. unfold kept.
  destruct e; try discriminate Hq; simpl; (split; [tauto|]);
    intros h Hh; rewrite opens_cons; simpl; auto.
Qed.

Lemma kept_read (who : loop) (h : handle) (r : bool) (f : option frame)
    (tr : list event) :
  kept (Some h) tr -> kept (Some h) (EvRead who h r f :: tr).
Proof.
  intros [Hs Hc]. destruct (Hc h eq_refl) as [H1 H2]. split; simpl; [tauto|].
  intros h' Hh. simplify_eq. rewrite opens_cons. simpl. tauto.
Qed.

Lemma kept_retry (h : handle) (u : string) (tr : list event) :
  kept (Some h) tr -> kept (Some h) (EvRetryOpen h u :: tr).
Proof.
  intros [Hs Hc]. destruct (Hc h eq_refl) as [H1 H2]. split; simpl; [tauto|].
  intros h' Hh. simplify_eq. rewrite opens_cons. simpl. tauto.
Qed.

Lemma kept_release (h : handle) (tr : list event) :
  kept (Some h) tr -> kept None (EvRelease h :: tr).
Proof.
  intros [Hs Hc]. destruct (Hc h eq_refl) as [H1 H2]. split; simpl; [tauto|].
  intros h' Hh. discriminate Hh.
Qed.

Lemma kept_open (c : option handle) (u : string) (o : bool) (tr : list event) :
  kept c tr -> kept (Some (opens tr)) (EvOpen (opens tr) u o :: tr).
Proof.
  intros [Hs Hc]. split; simpl; [tauto|].
  intros h' Hh. simplify_eq. rewrite opens_cons. simpl. split; [lia|].
  destruct (released (opens tr) tr) eqn:Hr; [|reflexivity].
  apply safe_released_created in Hr; [lia | exact Hs].
Qed.

Ltac keep :=
  lazymatch goal with
  | |- kept _ (EvOpen _ _ _ :: _) => eapply kept_open; keep
  | |- kept _ (EvRelease _ :: _) => apply kept_release; keep
  | |- kept _ (EvRead _ _ _ _ :: _) => apply kept_read; keep
  | |- kept _ (EvRetryOpen _ _ :: _) => apply kept_retry; keep
  | |- kept _ (_ :: _) => apply kept_quiet; [reflexivity | keep]
  | |- _ => eassumption
  end.

Lemma custody_step (env : environment) (g : generator) :
  custody g -> custody (step env g).
Proof.
  destruct g as [c [[url cp interval captured] tr]]. unfold custody.
  destruct c as [|u s|s| | | | | | | | | |]; try destruct s;
    simpl; intros Hk; exec;
    repeat (case_match; simplify_eq/=); exec; simpl; keep.
Qed.

(** X7. In every run, every read, every re-open and every release acts on
    a capture that was created earlier and has not been released: the
    engine never reads from a released capture and never releases a
    capture twice. *)
Theorem captures_used_while_live (env : environment) (url : string)
    (interval : Z) (n : nat) :
  safe (trace (mach (run env n (create url interval)))).
Proof.
  apply (run_invariant env custody (custody_step env)).
  split; [exact I|]. intros h Hh. discriminate Hh.
Qed.

Lemma filter_all (A : Type) (p : A -> bool) (l : list A) :
  (forall x, In x l -> p x = true) -> List.filter p l = l.
Proof.
  induction l as [|x l IH]; simpl; intros H; [reflexivity|].
  rewrite (H x) by auto. f_equal. apply IH. auto.
Qed.

Lemma filter_twice (A : Type) (p q : A -> bool) (l : list A) :
  List.filter p (List.filter q l) = List.filter (fun x => q x && p x) l.
Proof.
  induction l as [|x l IH]; simpl; [reflexivity|].
  destruct (q x); simpl; [destruct (p x)|]; now rewrite IH.
Qed.

Lemma open_handles_from_filter (later tr : list event) :
  open_handles_from later tr
  = List.filter (fun h => negb (released h later)) (open_handles tr).
Proof.
  revert later. induction tr as [|e tr IH]; intros later; [reflexivity|].
  unfold open_handles. simpl. rewrite (IH (e :: later)), (IH [e]).
  destruct e; simpl; rewrite ?filter_twice;
    try (apply List.filter_ext; intros a; unfold released; simpl;
         now rewrite ?Bool.orb_false_r).
  - fold (released h later). destruct (released h later); simpl;
      [|f_equal]; apply List.filter_ext; intros a; reflexivity.
  - apply List.filter_ext. intros a. rewrite Bool.orb_false_r.
    apply Bool.negb_orb.
Qed.

Lemma open_handles_cons (e : event) (tr : list event) :
  open_handles (e :: tr)
  = match e with
    | EvOpen h _ _ => h :: open_handles tr
    | EvRelease h => List.filter (fun h' => negb (Nat.eqb h' h)) (open_handles tr)
    | _ => open_handles tr
    end.
Proof.
  unfold open_handles at 1. simpl. rewrite open_handles_from_filter.
  destruct e; simpl;
    try (apply filter_all; intros; reflexivity);
    try (f_equal; apply filter_all; intros; reflexivity).
  apply List.filter_ext. intros a. unfold released. simpl.
  now rewrite Bool.orb_false_r.
Qed.

Lemma owning_other (c : option handle) (e : event) (tr : list event) (k : nat) :
  is_open e || is_release e = false -> owning c tr k -> owning c (e :: tr) k.
Proof.
  intros He (others & Ho & Hb & Hn & Hk). exists others.
  rewrite open_handles_cons, opens_cons.
  destruct e; try discriminate He; simpl; auto.
Qed.

Lemma owning_release (h : handle) (tr : list event) (k : nat) :
  owning (Some h) tr k -> owning None (EvRelease h :: tr) k.
Proof.
  intros (others & Ho & Hb & Hn & Hk). exists others.
  rewrite open_handles_cons, opens_cons. simpl. rewrite Ho in *. simpl.
  rewrite Nat.eqb_refl. simpl.
  assert (Hf : List.filter (fun h' => negb (Nat.eqb h' h)) others = others).
  { apply filter_all. intros x Hx. apply Bool.negb_true_iff, Nat.eqb_neq.
    intros ->. now apply (Hn h eq_refl). }
  rewrite Hf. repeat split; auto.
  - now inversion Hb.
  - intros h' Hh. discriminate Hh.
Qed.

Lemma owning_open_none (u : string) (o : bool) (tr : list event) (k : nat) :
  owning None tr k -> owning (Some (opens tr)) (EvOpen (opens tr) u o :: tr) k.
Proof.
  intros (others & Ho & Hb & Hn & Hk). exists others.
  rewrite open_handles_cons, opens_cons. simpl. rewrite Ho in *. simpl in *.
  repeat split; auto.
  - constructor; [lia|]. eapply Forall_impl; [exact Hb|]. simpl. intros; lia.
  - intros h Hh Hin. simplify_eq.
    rewrite Forall_forall in Hb. apply list_elem_of_In in Hin.
    specialize (Hb _ Hin). simpl in Hb. lia.
Qed.

Lemma owning_open_some (h : handle) (u : string) (o : bool) (tr : list event) :
  owning (Some h) tr 0 -> owning (Some (opens tr)) (EvOpen (opens tr) u o :: tr) 1.
Proof.
  intros (others & Ho & Hb & Hn & Hk). exists [h].
  destruct others; [|simpl in Hk; lia].
  rewrite open_handles_cons, opens_cons. simpl. rewrite Ho in *. simpl in *.
  repeat split; auto.
  - constructor; [lia|]. eapply Forall_impl; [exact Hb|]. simpl. intros; lia.
  - intros h' Hh [Hin|[]]. simplify_eq. inversion Hb; subst. lia.
Qed.

Lemma owning_weaken (c : option handle) (tr : list event) :
  owning c tr 0 -> owning c tr 1.
Proof.
  intros (others & Ho & Hb & Hn & Hk). exists others. repeat split; auto.
Qed.

Ltac own :=
  lazymatch goal with
  | |- owning _ (EvOpen _ _ _ :: _) _ =>
      first [ eapply owning_open_none; own | eapply owning_open_some; own ]
  | |- owning _ (EvRelease _ :: _) _ => apply owning_release; own
  | |- owning _ (_ :: _) _ => apply owning_other; [reflexivity | own]
  | |- _ => first [ eassumption | apply owning_weaken; eassumption ]
  end.

Lemma ownership_step (env : environment) (g : generator) :
  ownership g -> ownership (step env g).
Proof.
  destruct g as [c [[url cp interval captured] tr]]. unfold ownership.
  destruct c as [|u s|s| | | | | | | | | |]; try destruct s;
    simpl; intros [Hn Ho]; try specialize (Hn eq_refl); subst;
    try destruct cp as [h0|]; exec;
    repeat (case_match; simplify_eq/=); exec; simpl;
    (split; [intros Hb; try discriminate Hb; reflexivity|]); own.
Qed.

(** X8. At every moment of a run at most two captures are open, and while
    the control is in [execute_capture]'s own loop the only open capture
    is the one the engine holds. *)
Theorem at_most_two_captures_open (env : environment) (url : string)
    (interval : Z) (n : nat) :
  let g := run env n (create url interval) in
  (length (open_handles (trace (mach g))) <= 2)%nat /\
  (in_primary (ctrl g) = true ->
   open_handles (trace (mach g)) = held (cap (self (mach g)))).
Proof.
  intros g.
  assert (H : ownership g).
  { apply (run_invariant env ownership (ownership_step env)).
    split; [reflexivity|]. exists []. repeat split; auto.
    all: intros h Hh; discriminate Hh. }
  destruct H as [_ (others & Ho & _ & _ & Hk)]. rewrite Ho. split.
  - rewrite length_app. destruct (cap (self (mach g))), (in_primary (ctrl g));
      simpl; lia.
  - intros Hp. rewrite Hp in Hk. destruct others; [|simpl in Hk; lia].
    now rewrite app_nil_r.
Qed.

Lemma at_most_two_captures_open_witness :
  let g := run Scenario.one_frame 30 (create "rtsp://cam" 15) in
  open_handles (trace (mach g)) = held (cap (self (mach g))).
Proof.
  apply (at_most_two_captures_open Scenario.one_frame "rtsp://cam" 15 30).
  vm_compute. reflexivity.
Defined.

(** ** The interval gate under runtime updates *)

Lemma gated_above_step (env : environment) (lowest : Z) (g : generator) :
  gated_above lowest g -> gated_above lowest (step env g).
Proof.
  destruct g as [c [e tr]]. unfold gated_above.
  destruct c as [|u k|k| | | | | | | | | |]; try destruct k;
    exec; intros (HT & Hs & Hl); repeat case_match; simplify_eq/=;
    split_bools;
    repeat match goal with H : _ /\ _ |- _ => destruct H end;
    try match goal with H : yields _ = [] |- _ => rewrite H in * end;
    (split; [assumption|split]);
    first [ assumption
          | eapply spaced_primary;
              [eapply elapsed_lower; [exact HT | eassumption]
              | eassumption | eassumption]
          | eapply spaced_fallback;
              [eapply elapsed_lower; [exact HT | eassumption]
              | eassumption | eassumption]
          | exact I
          | reflexivity
          | apply all_primary_latest_fallback; assumption
          | split; first [assumption | reflexivity | exact I
                         | constructor; first [reflexivity | assumption]] ].
Qed.

Lemma gated_above_perform (env : environment) (lowest : Z) (a : action)
    (g : generator) :
  at_least lowest a -> gated_above lowest g -> gated_above lowest (perform env a g).
Proof.
  destruct a as [|new_interval]; simpl; intros Ha Hg.
  - now apply gated_above_step.
  - destruct Hg as (_ & Hs & Hl). repeat split; assumption.
Qed.

(** X9. The interval gate under [update_capture_interval]: when the
    interval the engine starts with and every interval set while it runs
    are at least [lowest] seconds, the local clock readings of two
    successive yields of the same loop pass the test of the gate for
    [lowest], wherever in the run the updates fall; for [lowest] between
    0 and 2^33 seconds they are at least [lowest] seconds apart, to the
    microsecond. *)
Theorem frames_spaced_under_updates (env : environment) (url : string)
    (interval lowest : Z) (actions : list action) :
  lowest <= interval ->
  Forall (at_least lowest) actions ->
  let ys := yields (trace (mach (play env actions (create url interval)))) in
  successive (elapsed lowest) ys /\
  (0 <= lowest <= 2 ^ 33 -> successive (apart lowest) ys).
Proof.
  intros Hi Ha ys.
  assert (H : forall g, gated_above lowest g ->
                        gated_above lowest (play env actions g)).
  { induction Ha as [|a rest Hh Hrest IH]; intros g Hg; simpl; [exact Hg|].
    apply IH. now apply gated_above_perform. }
  assert (Hs : successive (elapsed lowest) ys).
  { apply H. split; [exact Hi|]. split; [exact I | reflexivity]. }
  split; [exact Hs|].
  intros Hb. eapply successive_impl; [|exact Hs].
  intros t1 t2. now apply elapsed_apart.
Qed.

Lemma frames_spaced_under_updates_witness :
  let ys := yields (trace (mach
       (play Scenario.healthy
          (repeat Next 8 ++ SetInterval 2 :: repeat Next 12
           ++ SetInterval 7 :: repeat Next 30)
          (create "rtsp://cam" 5)))) in
  successive (apart 2) ys /\ length ys = 6%nat.
Proof.
  intros ys. split; [|vm_compute; reflexivity].
  destruct (frames_spaced_under_updates Scenario.healthy "rtsp://cam" 5 2
              (repeat Next 8 ++ SetInterval 2 :: repeat Next 12
               ++ SetInterval 7 :: repeat Next 30)) as [_ Hexact].
  - lia.
  - simpl. repeat (constructor; [simpl; first [exact I | lia]|]). constructor.
  - apply Hexact. split; [lia | discriminate].
Defined.

(** ** The first frame of the primary loop *)

Lemma first_now_cons (e : event) (tr : list event) (t : Z) :
  first_now tr = Some t -> first_now (e :: tr) = Some t.
Proof. simpl. now intros ->. Qed.

Lemma primed_step (env : environment) (interval : Z) (g : generator) :
  primed interval g -> primed interval (step env g).
Proof.
  destruct g as [c [[url cp T captured] tr]]. unfold primed.
  destruct c as [|u s|s| | | | | | | | | |]; try destruct s;
    simpl; intros [HT Hp]; subst T; exec;
    repeat (case_match; simplify_eq/=); exec; simpl;
    (split; [reflexivity|]); intros Hin Hy; try discriminate Hin;
    try discriminate Hy; try exact I;
    try specialize (Hp eq_refl Hy);
    try (destruct Hp as (t0 & Hf & Hl));
    repeat match goal with
    | H : first_now ?t = _ |- context [first_now ?t] => rewrite H
    end; eauto; exfalso; congruence.
Qed.

(** X10. The first frame of the primary loop is not held back by the
    gate: at the loop head with nothing yielded yet, a read that delivers
    a frame is followed by the yield of that frame, whatever the interval,
    provided the clock reading taken after the read is not earlier than
    the first clock reading of the run. *)
Theorem first_primary_frame_is_yielded (env : environment) (url : string)
    (interval : Z) (n : nat) (l : locals) (h : handle) (f : frame) :
  let g := run env n (create url interval) in
  let after_read := EvRead Primary h true (Some f) :: trace (mach g) in
  ctrl g = PrimaryHead l ->
  cap (self (mach g)) = Some h ->
  yields (trace (mach g)) = [] ->
  env_read env (trace (mach g)) = (true, Some f) ->
  (forall t0, first_now (trace (mach g)) = Some t0 ->
              t0 <= env_now env after_read) ->
  yields (trace (mach (step env g))) = [(Primary, env_now env after_read)] /\
  ctrl (step env g)
  = PrimaryYield {| last_process_time := env_now env after_read; fail_count := 0 |}.
Proof.
  intros g after_read Hc Hcap Hy Hr Hclock.
  assert (Hp : primed interval g).
  { apply (run_invariant env (primed interval) (primed_step env interval)).
    split; [reflexivity|]. intros _ _. reflexivity. }
  subst after_read. clearbody g.
  destruct g as [c [[u cp T captured] tr]]; simpl in *. subst c cp.
  destruct Hp as [HT Hp]. simpl in HT. subst T.
  destruct (Hp eq_refl Hy) as (t0 & Hf & Hl).
  specialize (Hclock t0 Hf).
  apply seconds_before_value in Hl. destruct Hl as [Hl Hb].
  exec. rewrite Hr. exec.
  set (now := env_now env (EvRead Primary h true (Some f) :: tr)) in *.
  assert (Hgate : Qle_bool (inject_Z interval)
                    (total_seconds (now - last_process_time l)) = true)
    by (apply total_seconds_reaches; [exact Hb | lia]).
  rewrite Hgate. exec. simpl. rewrite Hy. split; reflexivity.
Qed.

Lemma first_primary_frame_is_yielded_witness :
  let env := Scenario.healthy in
  let g := run env 2 (create "rtsp://cam" 15) in
  yields (trace (mach (step env g))) = [(Primary, 1000000)] /\
  ctrl (step env g)
  = PrimaryYield {| last_process_time := 1000000; fail_count := 0 |}.
Proof.
  intros env g.
  apply (first_primary_frame_is_yielded env "rtsp://cam" 15 2
           {| last_process_time := -15000000; fail_count := 0 |} 0%nat 7%nat).
  - vm_compute. reflexivity.
  - vm_compute. reflexivity.
  - vm_compute. reflexivity.
  - vm_compute. reflexivity.
  - intros t0 H. vm_compute in H. inversion H; subst. vm_compute. discriminate.
Defined.

(** ** More on quality selection *)

Lemma first_available_member (preferred : list string)
    (streams : gmap string stream) (quality : string) (selected : stream) :
  first_available preferred streams = Some (quality, selected) ->
  In quality preferred /\ streams !! quality = Some selected.
Proof.
  induction preferred as [|q rest IH]; simpl; [discriminate|].
  destruct (streams !! q) as [u|] eqn:E.
  - intros H. simplify_eq. auto.
  - intros H. destruct (IH H). auto.
Qed.

Lemma first_available_offered (preferred : list string)
    (streams : gmap string stream) (quality : string) :
  In quality preferred -> is_Some (streams !! quality) ->
  is_Some (first_available preferred streams).
Proof.
  induction preferred as [|q rest IH]; simpl; [tauto|].
  intros Hin Hq. destruct (streams !! q) as [u|] eqn:E; [eauto|].
  destruct Hin as [->|Hin]; [|auto].
  rewrite E in Hq. now destruct Hq.
Qed.

Lemma preferred_qualities_grow (slow fast : Q) (quality : string) :
  (slow <= fast)%Q ->
  In quality (preferred_qualities slow) -> In quality (preferred_qualities fast).
Proof.
  intros Hle. unfold preferred_qualities.
  destruct (Qle_bool slow (10 # 1)) eqn:S10, (Qle_bool slow (5 # 1)) eqn:S5,
           (Qle_bool fast (10 # 1)) eqn:F10, (Qle_bool fast (5 # 1)) eqn:F5;
    simpl; try tauto; exfalso;
    repeat match goal with
    | H : Qle_bool _ _ = true |- _ => apply Qle_bool_iff in H
    | H : Qle_bool _ _ = false |- _ =>
        apply Bool.not_true_iff_false in H; rewrite Qle_bool_iff in H
    end;
    first [ now apply S10, (Qle_trans _ _ _ Hle F10)
          | now apply S5, (Qle_trans _ _ _ Hle F5)
          | apply S10, (Qle_trans _ _ _ S5); unfold Qle; simpl; lia ].
Qed.

Lemma worst_is_preferred (download_speed : Q) :
  In "worst"%string (preferred_qualities download_speed).
Proof.
  unfold preferred_qualities.
  destruct (negb (Qle_bool download_speed (10 # 1)));
    [|destruct (negb (Qle_bool download_speed (5 # 1))
                && Qle_bool download_speed (10 # 1))];
    simpl; tauto.
Qed.

(** When every offered stream has a URL, a URL is returned exactly when a
    label is selected. *)
Lemma quality_for_speed_with_urls (download_speed : Q)
    (streams : gmap string stream) :
  (forall quality selected, streams !! quality = Some selected -> is_Some selected) ->
  is_Some (quality_for_speed download_speed (Some streams))
  <-> is_Some (first_available (preferred_qualities download_speed) streams).
Proof.
  intros Hurls. unfold quality_for_speed.
  destruct (first_available (preferred_qualities download_speed) streams)
    as [[quality selected]|] eqn:E.
  - apply first_available_member in E. destruct E as [_ E].
    split; [eauto | intros _; exact (Hurls _ _ E)].
  - split; intros [x Hx]; discriminate Hx.
Qed.

(** X11. A faster link never makes the selection fail for want of a
    label: when a label is selected at some download speed, one is
    selected at every higher speed, from the same offer; and whenever
    streamlink offers the tier [worst], a label is selected at every
    speed.  When every offered stream has a URL the same holds of the
    URL that [select_quality_based_on_speed] returns. *)
Theorem selection_succeeds_at_higher_speed (slow fast : Q)
    (streams : gmap string stream) :
  ((slow <= fast)%Q ->
   is_Some (first_available (preferred_qualities slow) streams) ->
   is_Some (first_available (preferred_qualities fast) streams)) /\
  (is_Some (streams !! "worst"%string) ->
   is_Some (first_available (preferred_qualities slow) streams)) /\
  ((forall quality selected, streams !! quality = Some selected -> is_Some selected) ->
   ((slow <= fast)%Q ->
    is_Some (quality_for_speed slow (Some streams)) ->
    is_Some (quality_for_speed fast (Some streams))) /\
   (is_Some (streams !! "worst"%string) ->
    is_Some (quality_for_speed slow (Some streams)))).
Proof.
  assert (Hup : (slow <= fast)%Q ->
                is_Some (first_available (preferred_qualities slow) streams) ->
                is_Some (first_available (preferred_qualities fast) streams)).
  { intros Hle [[q u] Hsel].
    apply first_available_member in Hsel. destruct Hsel as [Hin Hq].
    apply (first_available_offered _ _ q); [|eauto].
    now apply (preferred_qualities_grow slow fast). }
  assert (Hworst : is_Some (streams !! "worst"%string) ->
                   is_Some (first_available (preferred_qualities slow) streams)).
  { intros Hw. apply (first_available_offered _ _ "worst"%string); [|exact Hw].
    apply worst_is_preferred. }
  split; [exact Hup|]. split; [exact Hworst|].
  intros Hurls. rewrite !quality_for_speed_with_urls by exact Hurls. auto.
Qed.

Lemma selection_succeeds_at_higher_speed_witness :
  is_Some (quality_for_speed (12 # 1) (Some Scenario.tiers)) /\
  is_Some (quality_for_speed (3 # 1) (Some Scenario.tiers)).
Proof.
  destruct (selection_succeeds_at_higher_speed (3 # 1) (12 # 1) Scenario.tiers)
    as (_ & _ & Hurls).
  destruct Hurls as [Hup Hworst].
  { intros quality selected. unfold Scenario.tiers.
    rewrite !lookup_insert, lookup_empty.
    repeat (destruct (decide _); [intros H; injection H as <-; eauto|]).
    discriminate. }
  assert (Hlow : is_Some (quality_for_speed (3 # 1) (Some Scenario.tiers))).
  { apply Hworst. vm_compute. eauto. }
  split; [|exact Hlow].
  apply Hup; [unfold Qle; simpl; lia | exact Hlow].
Defined.

(** X12. The selection never goes above the class of the measured speed:
    the selected label is one of the ladder and is offered by streamlink
    with the stream whose [url] the method returns; at 10 Mbps or less
    neither [best] nor [1080p] is ever selected, and at 5 Mbps or less
    [720p] is not selected either. *)
Theorem selection_stays_in_speed_class (download_speed : Q)
    (streams : gmap string stream) (quality : string) (selected : stream) :
  first_available (preferred_qualities download_speed) streams
  = Some (quality, selected) ->
  quality_for_speed download_speed (Some streams) = selected /\
  In quality (preferred_qualities download_speed) /\
  streams !! quality = Some selected /\
  ((download_speed <= 10 # 1)%Q ->
   quality <> "best"%string /\ quality <> "1080p"%string) /\
  ((download_speed <= 5 # 1)%Q ->
   quality <> "best"%string /\ quality <> "1080p"%string /\
   quality <> "720p"%string).
Proof.
  intros Hsel. split; [unfold quality_for_speed; now rewrite Hsel|].
  apply first_available_member in Hsel.
  destruct Hsel as [Hin Hq].
  split; [exact Hin|]. split; [exact Hq|]. revert Hin.
  unfold preferred_qualities. split.
  - intros H10. apply Qle_bool_iff in H10. revert Hin. rewrite H10. simpl.
    destruct (negb (Qle_bool download_speed (5 # 1)) && true); simpl;
      intros Hin; split; intros ->; intuition discriminate.
  - intros H5.
    assert (H10 : (download_speed <= 10 # 1)%Q)
      by (eapply Qle_trans; [exact H5 | unfold Qle; simpl; lia]).
    apply Qle_bool_iff in H5, H10. revert Hin. rewrite H5, H10. simpl.
    intros Hin; repeat split; intros ->; intuition discriminate.
Qed.

Lemma selection_stays_in_speed_class_witness :
  let streams : gmap string stream :=
    <["best" := Some "http://cdn/best"]>
      (<["720p" := Some "http://cdn/720"]> Scenario.tiers) in
  first_available (preferred_qualities (3 # 1)) streams
  = Some ("480p", Some "http://cdn/480")%string /\
  quality_for_speed (3 # 1) (Some streams) = Some "http://cdn/480"%string /\
  ("480p" <> "best" /\ "480p" <> "1080p" /\ "480p" <> "720p")%string.
Proof.
  intros streams.
  assert (Hsel : first_available (preferred_qualities (3 # 1)) streams
                 = Some ("480p", Some "http://cdn/480")%string)
    by (vm_compute; reflexivity).
  split; [exact Hsel|].
  destruct (selection_stays_in_speed_class (3 # 1) streams _ _ Hsel)
    as (Hurl & _ & _ & _ & Hlow).
  split; [exact Hurl|].
  apply Hlow. unfold Qle; simpl; lia.
Defined.

(** * Verification of the violation sender *)

Section SenderFacts.

Import ViolationSender.

Variable datetime : Type.
Variable isoformat : datetime -> string.
Variable be : backend.

Lemma posts_app (a b : list call) : posts (a ++ b) = (posts a + posts b)%nat.
Proof. unfold posts. now rewrite List.filter_app, length_app. Qed.

Lemma sleeps_app (a b : list call) : sleeps (a ++ b) = sleeps a ++ sleeps b.
Proof.
  induction a as [|e a IH]; [reflexivity|].
  destruct e; simpl; now rewrite IH.
Qed.

Lemma backoff_schedule_next (first : Z) (k : nat) :
  backoff_schedule first (S k) = first :: backoff_schedule (first * 2) k.
Proof.
  unfold backoff_schedule. simpl. f_equal; [lia|].
  rewrite <- seq_shift, map_map. apply map_ext. intros i.
  rewrite Nat2Z.inj_succ, Z.pow_succ_r by lia. lia.
Qed.

(** The explanation of an outcome carries over from the rest of the loop
    to the loop that made one more request first. *)
Lemma explained_after_retry (result : outcome) (r : nat)
    (new extra tr : list call) :
  (0 < r)%nat -> posts extra = 1%nat ->
  explained be result r new (new ++ extra ++ tr) ->
  explained be result (S r) (new ++ extra) ((new ++ extra) ++ tr).
Proof.
  intros Hr He. rewrite <- app_assoc. unfold explained.
  destruct result; rewrite ?posts_app, ?He; intuition (try lia; try congruence).
Qed.

(** What the retry loop does, by induction on the attempts that are
    left. *)
Lemma attempts_spec (s : sender) (url : string) (data : gmap string string)
    (image : list Byte.byte) (remaining : nat) :
  forall (attempt : Z) (authorization : string) (backoff_delay : Z)
         (tr : list call),
    attempt + Z.of_nat remaining = max_retries s ->
    exists new k,
      snd (attempts be s url data image remaining attempt authorization
                    backoff_delay tr) = new ++ tr /\
      (posts new <= remaining)%nat /\
      (0 < remaining -> 0 < posts new)%nat /\
      sleeps new = rev (backoff_schedule backoff_delay k) /\
      (k <= remaining - 1)%nat /\
      List.filter is_pool_call new = [] /\
      explained be
        (fst (attempts be s url data image remaining attempt authorization
                       backoff_delay tr))
        remaining new
        (snd (attempts be s url data image remaining attempt authorization
                       backoff_delay tr)).
Proof.
  induction remaining as [|r IH]; intros attempt authorization b tr Hinv.
  - exists [], 0%nat. simpl. repeat split; auto; try lia.
  - simpl attempts.
    set (request := Post url authorization data image).
    assert (Hone : posts [request] = 1%nat) by reflexivity.
    assert (Hreq : exists url authorization data image rest,
                     request :: tr = Post url authorization data image :: rest)
      by (unfold request; eauto 10).
    remember (post be (request :: tr)) as answered eqn:Hpost.
    symmetry in Hpost.
    assert (Hlast : last_request be (request :: tr) answered)
      by (split; assumption).
    assert (Hstop : forall result,
              (explained be result (S r) [request] (request :: tr)) ->
              exists new k,
                snd (result, request :: tr) = new ++ tr /\
                (posts new <= S r)%nat /\
                (0 < S r -> 0 < posts new)%nat /\
                sleeps new = rev (backoff_schedule b k) /\
                (k <= S r - 1)%nat /\
                List.filter is_pool_call new = [] /\
                explained be (fst (result, request :: tr)) (S r) new
                          (snd (result, request :: tr))).
    { intros result He. exists [request], 0%nat. simpl.
      rewrite Hone. repeat split; auto; lia. }
    assert (Hsleep :
              attempt < max_retries s - 1 ->
              exists new k,
                snd (attempts be s url data image r (attempt + 1) authorization
                       (b * 2) (Sleep b :: request :: tr)) = new ++ tr /\
                (posts new <= S r)%nat /\
                (0 < S r -> 0 < posts new)%nat /\
                sleeps new = rev (backoff_schedule b k) /\
                (k <= S r - 1)%nat /\
                List.filter is_pool_call new = [] /\
                explained be
                  (fst (attempts be s url data image r (attempt + 1)
                          authorization (b * 2) (Sleep b :: request :: tr)))
                  (S r) new
                  (snd (attempts be s url data image r (attempt + 1)
                          authorization (b * 2) (Sleep b :: request :: tr)))).
    { intros Hlt.
      destruct (IH (attempt + 1) authorization (b * 2) (Sleep b :: request :: tr))
        as (new & k & Htr & Hp & Hp0 & Hs & Hk & Hq & He); [lia|].
      exists (new ++ [Sleep b; request]), (S k).
      rewrite Htr in *.
      assert (Hex : posts [Sleep b; request] = 1%nat) by reflexivity.
      rewrite posts_app, sleeps_app, List.filter_app, Hq, Hs, Hex,
              backoff_schedule_next.
      split; [now rewrite <- app_assoc|].
      repeat split; simpl; auto; try lia.
      replace (new ++ Sleep b :: request :: tr)
        with ((new ++ [Sleep b; request]) ++ tr) by now rewrite <- app_assoc.
      apply explained_after_retry; [lia | exact Hex | exact He]. }
    destruct answered as [v| |code|].
    + apply Hstop. right. exact Hlast.
    + destruct (attempt <? max_retries s - 1) eqn:Hlt.
      * apply Z.ltb_lt in Hlt. now apply Hsleep.
      * apply Z.ltb_ge in Hlt. apply Hstop.
        split; [reflexivity|]. split; [|exact Hlast]. rewrite Hone. lia.
    + destruct (code =? 401) eqn:H401.
      * apply Z.eqb_eq in H401. subst code.
        destruct (refresh_token be (request :: tr)) eqn:Href.
        -- destruct (get_valid_token be (RefreshToken true :: request :: tr))
             as [new_token|] eqn:Htok.
           ++ assert (Hex : posts [GetToken (Returns new_token);
                                   RefreshToken true; request] = 1%nat)
                by reflexivity.
              destruct (attempt <? max_retries s - 1) eqn:Hlt.
              ** apply Z.ltb_lt in Hlt.
                 destruct (IH (attempt + 1) (bearer new_token) b
                             (GetToken (Returns new_token) :: RefreshToken true
                              :: request :: tr))
                   as (new & k & Htr & Hp & Hp0 & Hs & Hk & Hq & He); [lia|].
                 exists (new ++ [GetToken (Returns new_token); RefreshToken true;
                                 request]), k.
                 rewrite Htr in *.
                 rewrite posts_app, sleeps_app, List.filter_app, Hq, Hs, Hex.
                 split; [now rewrite <- app_assoc|].
                 repeat split; simpl; auto; try lia; [now rewrite app_nil_r|].
                 replace (new ++ GetToken (Returns new_token) :: RefreshToken true
                          :: request :: tr)
                   with ((new ++ [GetToken (Returns new_token); RefreshToken true;
                                  request]) ++ tr) by now rewrite <- app_assoc.
                 apply explained_after_retry; [lia | exact Hex | exact He].
              ** apply Z.ltb_ge in Hlt.
                 exists [GetToken (Returns new_token); RefreshToken true;
                         request], 0%nat. simpl.
                 repeat split; auto; try lia.
           ++ exists [GetToken Raises; RefreshToken true; request], 0%nat.
              simpl. repeat split; auto; try lia.
              change (1 <= S r)%nat. lia.
        -- exists [RefreshToken false; request], 0%nat.
           simpl. repeat split; auto; try lia.
           change (1 <= S r)%nat. lia.
      * apply Z.eqb_neq in H401. apply Hstop.
        left. split; [exact H401 | exact Hlast].
    + destruct (attempt <? max_retries s - 1) eqn:Hlt.
      * apply Z.ltb_lt in Hlt. now apply Hsleep.
      * apply Hstop. exact I.
Qed.


(** What one call of [send_violation] does. *)
Lemma send_violation_spec (s : sender) (tr : list call)
    (site stream_name : string) (image_bytes : list Byte.byte)
    (detection_time : option datetime)
    (warnings_json detections_json cone_polygon_json pole_polygon_json
       : option string) :
  let sent := send_violation datetime isoformat be s tr site stream_name
                image_bytes detection_time warnings_json detections_json
                cone_polygon_json pole_polygon_json in
  exists new k,
    snd sent = new ++ tr /\
    (posts new <= Z.to_nat (max_retries s))%nat /\
    sleeps new = rev (backoff_schedule 1 k) /\
    (k <= Z.to_nat (max_retries s) - 1)%nat /\
    match fst (fst sent) with
    | Returned violation_id =>
        (max_retries s <= 0 /\ violation_id = None /\ posts new = 0%nat) \/
        last_request be (snd sent) (Accepted violation_id)
    | RuntimeError message =>
        (message = "Failed to obtain valid access token"%string /\
         new = [GetToken (get_valid_token be tr)]) \/
        (message = timeout_message /\
         posts new = Z.to_nat (max_retries s) /\
         last_request be (snd sent) ConnectTimeout)
    | HTTPStatusError status_code =>
        (status_code <> 401 /\
         last_request be (snd sent) (StatusError status_code)) \/
        (status_code = 401 /\ posts new = Z.to_nat (max_retries s))
    | OtherException => True
    end.
Proof.
  intros sent. subst sent. unfold send_violation.
  destruct (get_valid_token be tr) as [token|] eqn:Htok.
  2:{ exists [GetToken Raises], 0%nat. unfold posts. simpl.
      repeat split; auto; lia. }
  destruct (truthy token) as [access_token|] eqn:Htruthy.
  2:{ exists [GetToken (Returns token)], 0%nat. unfold posts. simpl.
      repeat split; auto; lia. }
  set (data := form_data datetime isoformat site stream_name detection_time
                 warnings_json detections_json cone_polygon_json
                 pole_polygon_json).
  set (tr0 := GetToken (Returns token) :: tr).
  set (url := (base_url s ++ "/upload")%string).
  assert (Hpool : exists pool,
            snd (_get_client s tr0) = pool ++ tr0 /\
            posts pool = 0%nat /\ sleeps pool = [] /\
            max_retries (snd (fst (_get_client s tr0))) = max_retries s).
  { unfold _get_client. destruct (client s) as [c|]; [destruct (is_closed c)|];
      first [ now exists [] | eexists [_]; simpl; repeat split; reflexivity ]. }
  destruct (_get_client s tr0) as [[c s'] tr1]. simpl in Hpool.
  destruct Hpool as (pool & -> & Hpp & Hps & Hmax).
  destruct (Z_le_gt_dec 0 (max_retries s)) as [Hpos|Hneg].
  - destruct (attempts_spec s' url data image_bytes
                (Z.to_nat (max_retries s')) 0 (bearer (Some access_token)) 1
                (pool ++ tr0))
      as (new & k & Htr & Hp & Hp0 & Hs & Hk & _ & He); [lia|].
    destruct (attempts be s' url data image_bytes
                (Z.to_nat (max_retries s')) 0 (bearer (Some access_token)) 1
                (pool ++ tr0)) as [result tr2].
    simpl in *. subst tr2. rewrite Hmax in *.
    exists (new ++ pool ++ [GetToken (Returns token)]), k.
    rewrite !posts_app, !sleeps_app, Hpp, Hps, Hs. simpl.
    rewrite app_nil_r, Nat.add_0_r, <- !app_assoc. simpl.
    repeat split; auto.
    unfold explained in He. unfold tr0 in He.
    destruct result; auto.
    destruct He as [(Hz & -> & ->)|He]; [left|right; exact He].
    repeat split; auto; lia.
  - rewrite Hmax. replace (Z.to_nat (max_retries s)) with 0%nat by lia. simpl.
    exists (pool ++ [GetToken (Returns token)]), 0%nat.
    rewrite posts_app, sleeps_app, Hpp, Hps, <- app_assoc. simpl.
    repeat split; auto. left. repeat split; auto; lia.
Qed.


(** X13. One call of [send_violation] makes at most [max_retries]
    requests, and none at all when [max_retries] is zero or negative. *)
Theorem send_violation_requests_bounded (s : sender) (tr : list call)
    (site stream_name : string) (image_bytes : list Byte.byte)
    (detection_time : option datetime)
    (warnings_json detections_json cone_polygon_json pole_polygon_json
       : option string) :
  exists new,
    snd (send_violation datetime isoformat be s tr site stream_name image_bytes
           detection_time warnings_json detections_json cone_polygon_json
           pole_polygon_json) = new ++ tr /\
    (posts new <= Z.to_nat (max_retries s))%nat.
Proof.
  destruct (send_violation_spec s tr site stream_name image_bytes detection_time
              warnings_json detections_json cone_polygon_json pole_polygon_json)
    as (new & k & Htr & Hp & _). eauto.
Qed.

Lemma backoff_schedule_sum (first : Z) (k : nat) :
  fold_right Z.add 0 (backoff_schedule first k) = first * (2 ^ Z.of_nat k - 1).
Proof.
  revert first. induction k as [|k IH]; intros first; [simpl; lia|].
  rewrite backoff_schedule_next. simpl. rewrite IH.
  rewrite Nat2Z.inj_succ, Z.pow_succ_r by lia. lia.
Qed.

Lemma fold_right_add_rev (l : list Z) :
  fold_right Z.add 0 (rev l) = fold_right Z.add 0 l.
Proof.
  induction l as [|x l IH]; [reflexivity|]. simpl.
  rewrite fold_right_app. simpl. rewrite <- IH.
  generalize (rev l). intros l'. induction l' as [|y l' IH']; simpl; lia.
Qed.

Lemma paced_app (tr mid new : list call) :
  (forall url authorization data image rest,
     mid ++ tr <> Post url authorization data image :: rest) ->
  paced be (mid ++ tr) new -> paced be tr mid -> paced be tr (new ++ mid).
Proof.
  intros Hhead. induction new as [|e older IH]; intros Hn Hm; [exact Hm|].
  simpl in Hn |- *. destruct Hn as (H1 & H2 & H3).
  rewrite <- app_assoc. split; [exact H1|]. split; [|now apply IH].
  intros _ Hlast. destruct older as [|e' older'].
  - exfalso. destruct Hlast as [(u & a & d & i & rest & Heq) _].
    exact (Hhead _ _ _ _ _ Heq).
  - apply H2; [discriminate | exact Hlast].
Qed.

(** The retry loop sleeps only after a request that timed out or raised
    another exception, and refreshes the token after a 401. *)
Lemma attempts_paced (s : sender) (url : string) (data : gmap string string)
    (image : list Byte.byte) (remaining : nat) :
  forall (attempt : Z) (authorization : string) (backoff_delay : Z)
         (tr : list call),
    exists new,
      snd (attempts be s url data image remaining attempt authorization
                    backoff_delay tr) = new ++ tr /\
      paced be tr new.
Proof.
  induction remaining as [|r IH]; intros attempt authorization b tr.
  - exists []. split; [reflexivity | exact I].
  - simpl attempts.
    set (request := Post url authorization data image).
    assert (Hreq : exists url authorization data image rest,
                     request :: tr = Post url authorization data image :: rest)
      by (unfold request; eauto 10).
    assert (Hstop : paced be tr [request]).
    { simpl. repeat split; auto. intros H. now destruct H. }
    remember (post be (request :: tr)) as answered eqn:Hpost.
    symmetry in Hpost.
    assert (Hlast : last_request be (request :: tr) answered)
      by (split; assumption).
    assert (Hsleep : (answered = ConnectTimeout \/ answered = OtherError) ->
              exists new,
                snd (attempts be s url data image r (attempt + 1) authorization
                       (b * 2) (Sleep b :: request :: tr)) = new ++ tr /\
                paced be tr new).
    { intros Hwhy.
      destruct (IH (attempt + 1) authorization (b * 2) (Sleep b :: request :: tr))
        as (new & Htr & Hp).
      exists (new ++ [Sleep b; request]). split; [now rewrite <- app_assoc|].
      apply paced_app; [discriminate | exact Hp|].
      simpl. repeat split; auto.
      - destruct Hwhy as [<-| <-]; auto.
      - intros _ [_ H401]. rewrite Hpost in H401.
        destruct Hwhy as [->| ->]; discriminate H401.
      - intros H. now destruct H. }
    destruct answered as [v| |code|].
    + exists [request]. split; [reflexivity | exact Hstop].
    + destruct (attempt <? max_retries s - 1).
      * apply Hsleep. now left.
      * exists [request]. split; [reflexivity | exact Hstop].
    + destruct (code =? 401) eqn:H401.
      * apply Z.eqb_eq in H401. subst code.
        assert (Hrefresh : forall done, paced be tr [RefreshToken done; request]).
        { intros done. simpl. repeat split; auto.
          - intros _ _. eauto.
          - intros H. now destruct H. }
        destruct (refresh_token be (request :: tr)) eqn:Href.
        -- destruct (get_valid_token be (RefreshToken true :: request :: tr))
             as [new_token|] eqn:Htok.
           ++ assert (Hmid : paced be tr [GetToken (Returns new_token);
                                         RefreshToken true; request]).
              { split; [exact I|]. split; [|apply Hrefresh].
                intros _ [(u & a & d & i & rest & Heq) _]. discriminate Heq. }
              destruct (attempt <? max_retries s - 1).
              ** destruct (IH (attempt + 1) (bearer new_token) b
                            (GetToken (Returns new_token) :: RefreshToken true
                             :: request :: tr)) as (new & Htr & Hp).
                 exists (new ++ [GetToken (Returns new_token); RefreshToken true;
                                 request]).
                 split; [now rewrite <- app_assoc|].
                 apply paced_app; [discriminate | exact Hp | exact Hmid].
              ** eexists [_; _; _]. split; [reflexivity | exact Hmid].
           ++ exists [GetToken Raises; RefreshToken true; request].
              split; [reflexivity|].
              split; [exact I|]. split; [|apply Hrefresh].
              intros _ [(u & a & d & i & rest & Heq) _]. discriminate Heq.
        -- exists [RefreshToken false; request].
           split; [reflexivity | apply Hrefresh].
      * exists [request]. split; [reflexivity | exact Hstop].
    + destruct (attempt <? max_retries s - 1).
      * apply Hsleep. now right.
      * exists [request]. split; [reflexivity | exact Hstop].
Qed.

Lemma send_violation_paced (s : sender) (tr : list call)
    (site stream_name : string) (image_bytes : list Byte.byte)
    (detection_time : option datetime)
    (warnings_json detections_json cone_polygon_json pole_polygon_json
       : option string) :
  exists new,
    snd (send_violation datetime isoformat be s tr site stream_name image_bytes
           detection_time warnings_json detections_json cone_polygon_json
           pole_polygon_json) = new ++ tr /\
    paced be tr new.
Proof.
  unfold send_violation.
  assert (Htoken : forall t, paced be tr [GetToken t]).
  { intros t. simpl. repeat split; auto. intros H. now destruct H. }
  destruct (get_valid_token be tr) as [token|] eqn:Htok.
  2:{ exists [GetToken Raises]. split; [reflexivity | apply Htoken]. }
  destruct (truthy token) as [access_token|] eqn:Htruthy.
  2:{ exists [GetToken (Returns token)]. split; [reflexivity | apply Htoken]. }
  set (tr0 := GetToken (Returns token) :: tr).
  assert (Hpool : exists pool,
            snd (_get_client s tr0) = pool ++ tr0 /\
            (pool = [] \/ exists id, pool = [NewClient id])).
  { unfold _get_client. destruct (client s) as [c|]; [destruct (is_closed c)|];
      first [ exists []; split; [reflexivity | now left]
            | eexists [_]; split; [reflexivity | right; eauto] ]. }
  destruct (_get_client s tr0) as [[c s'] tr1]. simpl in Hpool.
  destruct Hpool as (pool & -> & Hpool).
  destruct (attempts_paced s' (base_url s ++ "/upload")%string
              (form_data datetime isoformat site stream_name detection_time
                 warnings_json detections_json cone_polygon_json
                 pole_polygon_json)
              image_bytes (Z.to_nat (max_retries s')) 0
              (bearer (Some access_token)) 1 (pool ++ tr0))
    as (new & Htr & Hp).
  destruct (attempts be s' _ _ _ _ _ _ _ _) as [result tr2].
  simpl in Htr |- *. subst tr2.
  exists (new ++ pool ++ [GetToken (Returns token)]). unfold tr0 in *.
  split; [now rewrite <- !app_assoc|].
  replace (pool ++ GetToken (Returns token) :: tr)
    with ((pool ++ [GetToken (Returns token)]) ++ tr) in Hp
    by now rewrite <- app_assoc.
  apply paced_app; [|exact Hp|].
  - destruct Hpool as [->|[id ->]]; discriminate.
  - destruct Hpool as [->|[id ->]]; simpl; repeat split; auto;
      try (intros H; now destruct H);
      intros _ [(u & a & d & i & rest & Heq) _]; discriminate Heq.
Qed.

(** X14. The sleeps of one call of [send_violation] are an exponential
    back-off: 1 second, then 2, then 4, and so on, at most
    [max_retries - 1] of them, so that the call sleeps [2^k - 1] seconds
    in all for [k] sleeps.  Every sleep comes directly after a request
    that timed out or raised another exception.  A request refused with
    status 401 is followed directly by the refresh of the token and not
    by a sleep: the retry after a 401 does not sleep, and does not count
    in the back-off. *)
Theorem send_violation_backoff (s : sender) (tr : list call)
    (site stream_name : string) (image_bytes : list Byte.byte)
    (detection_time : option datetime)
    (warnings_json detections_json cone_polygon_json pole_polygon_json
       : option string) :
  exists new k,
    snd (send_violation datetime isoformat be s tr site stream_name image_bytes
           detection_time warnings_json detections_json cone_polygon_json
           pole_polygon_json) = new ++ tr /\
    rev (sleeps new) = backoff_schedule 1 k /\
    (k <= Z.to_nat (max_retries s) - 1)%nat /\
    fold_right Z.add 0 (sleeps new) = 2 ^ Z.of_nat k - 1 /\
    paced be tr new.
Proof.
  destruct (send_violation_spec s tr site stream_name image_bytes detection_time
              warnings_json detections_json cone_polygon_json pole_polygon_json)
    as (new & k & Htr & _ & Hs & Hk & _).
  destruct (send_violation_paced s tr site stream_name image_bytes detection_time
              warnings_json detections_json cone_polygon_json pole_polygon_json)
    as (new' & Htr' & Hp).
  assert (new' = new) by (rewrite Htr in Htr'; now apply app_inv_tail in Htr').
  subst new'.
  exists new, k. rewrite Hs, rev_involutive, fold_right_add_rev,
                         backoff_schedule_sum.
  repeat split; auto. lia.
Qed.

(** X15. What the outcomes of [send_violation] mean.  A returned value is
    the [violation_id] of the response to the last request (or [None]
    without any request when [max_retries] is not positive): the call
    never returns because its attempts are used up.  A [RuntimeError] is
    either the refusal of an empty token, before any request or client,
    or the exhaustion of the attempts: [max_retries] requests have been
    made and the last one timed out.  An HTTP status error is either a
    status other than 401, on the request just made, or a 401 when
    [max_retries] requests have been made. *)
Theorem send_violation_outcomes (s : sender) (tr : list call)
    (site stream_name : string) (image_bytes : list Byte.byte)
    (detection_time : option datetime)
    (warnings_json detections_json cone_polygon_json pole_polygon_json
       : option string) :
  let sent := send_violation datetime isoformat be s tr site stream_name
                image_bytes detection_time warnings_json detections_json
                cone_polygon_json pole_polygon_json in
  exists new,
    snd sent = new ++ tr /\
    match fst (fst sent) with
    | Returned violation_id =>
        (max_retries s <= 0 /\ violation_id = None /\ posts new = 0%nat) \/
        last_request be (snd sent) (Accepted violation_id)
    | RuntimeError message =>
        (message = "Failed to obtain valid access token"%string /\
         new = [GetToken (get_valid_token be tr)]) \/
        (message = timeout_message /\
         posts new = Z.to_nat (max_retries s) /\
         last_request be (snd sent) ConnectTimeout)
    | HTTPStatusError status_code =>
        (status_code <> 401 /\
         last_request be (snd sent) (StatusError status_code)) \/
        (status_code = 401 /\ posts new = Z.to_nat (max_retries s))
    | OtherException => True
    end.
Proof.
  intros sent.
  destruct (send_violation_spec s tr site stream_name image_bytes detection_time
              warnings_json detections_json cone_polygon_json pole_polygon_json)
    as (new & k & Htr & _ & _ & _ & He). eauto.
Qed.

Lemma attempts_authorised (s : sender) (url : string)
    (data : gmap string string) (image : list Byte.byte) (remaining : nat) :
  forall (attempt : Z) (token : option string) (backoff_delay : Z)
         (tr : list call),
    authorised tr -> latest_token tr = Some token ->
    authorised (snd (attempts be s url data image remaining attempt
                       (bearer token) backoff_delay tr)).
Proof.
  induction remaining as [|r IH]; intros attempt token b tr Ha Hl;
    [exact Ha|].
  simpl attempts.
  assert (Ha1 : authorised (Post url (bearer token) data image :: tr))
    by (simpl; eauto).
  destruct (post be (Post url (bearer token) data image :: tr)) as [v| |code|].
  - exact Ha1.
  - destruct (attempt <? max_retries s - 1); [|exact Ha1].
    apply IH; simpl; auto.
  - destruct (code =? 401); [|exact Ha1].
    destruct (refresh_token be _); [|exact Ha1].
    destruct (get_valid_token be _) as [new_token|]; [|exact Ha1].
    destruct (attempt <? max_retries s - 1); [|exact Ha1].
    apply IH; simpl; auto.
  - destruct (attempt <? max_retries s - 1); [|exact Ha1].
    apply IH; simpl; auto.
Qed.

(** X16. Every request of [send_violation] carries, as its
    [Authorization], the token that the token manager returned last: the
    access token obtained at the start, and after a 401 the token obtained
    after the refresh.  A history in which this holds is extended by
    [send_violation] to one in which it holds. *)
Theorem send_violation_requests_authorised (s : sender) (tr : list call)
    (site stream_name : string) (image_bytes : list Byte.byte)
    (detection_time : option datetime)
    (warnings_json detections_json cone_polygon_json pole_polygon_json
       : option string) :
  authorised tr ->
  authorised
    (snd (send_violation datetime isoformat be s tr site stream_name image_bytes
            detection_time warnings_json detections_json cone_polygon_json
            pole_polygon_json)).
Proof.
  intros Ha. unfold send_violation.
  destruct (get_valid_token be tr) as [token|] eqn:Htok; [|exact Ha].
  destruct (truthy token) as [access_token|] eqn:Htruthy; [|exact Ha].
  assert (Htoken : token = Some access_token).
  { destruct token as [[|c t]|]; simpl in Htruthy; congruence. }
  subst token.
  assert (Hpool : authorised (snd (_get_client s (GetToken (Returns (Some access_token)) :: tr)))
                  /\ latest_token (snd (_get_client s (GetToken (Returns (Some access_token)) :: tr)))
                     = Some (Some access_token)).
  { unfold _get_client. destruct (client s) as [c|]; [destruct (is_closed c)|];
      simpl; auto. }
  destruct (_get_client s _) as [[c s'] tr1]. simpl in Hpool.
  destruct Hpool as [Ha1 Hl1].
  pose proof (attempts_authorised s' (base_url s ++ "/upload")%string
                (form_data datetime isoformat site stream_name detection_time
                   warnings_json detections_json cone_polygon_json
                   pole_polygon_json)
                image_bytes (Z.to_nat (max_retries s')) 0 (Some access_token) 1
                tr1 Ha1 Hl1) as H.
  destruct (attempts be s' _ _ _ _ _ _ _ _) as [result tr2]. exact H.
Qed.

(** X17. The form fields of a violation: the site and the stream name are
    always sent, the detection time whenever it is given, and each of the
    four JSON fields exactly when it is given and not empty; nothing else
    is sent. *)
Theorem form_data_fields (site stream_name : string)
    (detection_time : option datetime)
    (warnings_json detections_json cone_polygon_json pole_polygon_json
       : option string) :
  let data := form_data datetime isoformat site stream_name detection_time
                warnings_json detections_json cone_polygon_json
                pole_polygon_json in
  data !! "site"%string = Some site /\
  data !! "stream_name"%string = Some stream_name /\
  data !! "detection_time"%string = isoformat <$> detection_time /\
  data !! "warnings_json"%string = truthy warnings_json /\
  data !! "detections_json"%string = truthy detections_json /\
  data !! "cone_polygon_json"%string = truthy cone_polygon_json /\
  data !! "pole_polygon_json"%string = truthy pole_polygon_json /\
  forall key, is_Some (data !! key) ->
    In key ["site"; "stream_name"; "detection_time"; "warnings_json";
            "detections_json"; "cone_polygon_json"; "pole_polygon_json"]%string.
Proof.
  intros data. subst data. unfold form_data, add_if.
  destruct detection_time as [t|];
    destruct (truthy warnings_json), (truthy detections_json),
             (truthy cone_polygon_json), (truthy pole_polygon_json);
    simpl; repeat split;
    try (simplify_map_eq; reflexivity);
    intros key [v Hv];
    repeat (rewrite lookup_insert in Hv;
            destruct (decide _) as [<-|?] in Hv; [simpl; tauto|]);
    rewrite lookup_empty in Hv; discriminate Hv.
Qed.


Lemma attempts_all_timeout (s : sender) (url : string)
    (data : gmap string string) (image : list Byte.byte) (r : nat) :
  (forall tr, post be tr = ConnectTimeout) ->
  forall (attempt : Z) (authorization : string) (backoff_delay : Z)
         (tr : list call),
    attempt + Z.of_nat (S r) = max_retries s ->
    exists new,
      attempts be s url data image (S r) attempt authorization backoff_delay tr
      = (RuntimeError timeout_message, new ++ tr) /\
      posts new = S r /\
      sleeps new = rev (backoff_schedule backoff_delay r).
Proof.
  intros Hdown. induction r as [|r IH]; intros attempt authorization b tr Hinv.
  - simpl. rewrite Hdown.
    replace (attempt <? max_retries s - 1) with false
      by (symmetry; apply Z.ltb_ge; lia).
    exists [Post url authorization data image]. repeat split.
  - remember (S r) as r' eqn:Hr'. simpl. rewrite Hdown.
    replace (attempt <? max_retries s - 1) with true
      by (symmetry; apply Z.ltb_lt; lia).
    subst r'.
    destruct (IH (attempt + 1) authorization (b * 2)
                (Sleep b :: Post url authorization data image :: tr))
      as (new & Hrun & Hp & Hs); [lia|].
    exists (new ++ [Sleep b; Post url authorization data image]).
    rewrite Hrun, <- app_assoc, posts_app, sleeps_app, Hp, Hs,
            backoff_schedule_next.
    repeat split; simpl; try reflexivity; unfold posts; simpl; lia.
Qed.

(** X20. When the backend cannot be reached (every request ends in a
    connection timeout), a call with a valid token and [max_retries] of at
    least 1 makes exactly [max_retries] requests, sleeps 1, 2, 4, ...
    seconds between them, [max_retries - 1] times, and raises the
    [RuntimeError] that says the attempts are exhausted. *)
Theorem send_violation_timeouts_exhaust (s : sender) (tr : list call)
    (site stream_name : string) (image_bytes : list Byte.byte)
    (detection_time : option datetime)
    (warnings_json detections_json cone_polygon_json pole_polygon_json
       : option string) (token : string) :
  (forall tr, post be tr = ConnectTimeout) ->
  get_valid_token be tr = Returns (Some token) -> token <> EmptyString ->
  1 <= max_retries s ->
  exists new,
    let sent := send_violation datetime isoformat be s tr site stream_name
                  image_bytes detection_time warnings_json detections_json
                  cone_polygon_json pole_polygon_json in
    snd sent = new ++ tr /\
    fst (fst sent) = RuntimeError timeout_message /\
    posts new = Z.to_nat (max_retries s) /\
    rev (sleeps new) = backoff_schedule 1 (Z.to_nat (max_retries s) - 1).
Proof.
  intros Hdown Htok Hne Hmax. unfold send_violation. rewrite Htok.
  assert (Htruthy : truthy (Some token) = Some token)
    by (destruct token; [congruence | reflexivity]).
  rewrite Htruthy.
  set (tr0 := GetToken (Returns (Some token)) :: tr).
  assert (Hpool : exists pool,
            snd (_get_client s tr0) = pool ++ tr0 /\
            posts pool = 0%nat /\ sleeps pool = [] /\
            max_retries (snd (fst (_get_client s tr0))) = max_retries s).
  { unfold _get_client. destruct (client s) as [c|]; [destruct (is_closed c)|];
      first [ now exists [] | eexists [_]; simpl; repeat split; reflexivity ]. }
  destruct (_get_client s tr0) as [[c s'] tr1]. simpl in Hpool.
  destruct Hpool as (pool & -> & Hpp & Hps & Hm).
  destruct (Z.to_nat (max_retries s)) as [|r] eqn:Hr; [lia|].
  rewrite Hm, Hr.
  destruct (attempts_all_timeout s' (base_url s ++ "/upload")%string
              (form_data datetime isoformat site stream_name detection_time
                 warnings_json detections_json cone_polygon_json
                 pole_polygon_json)
              image_bytes r Hdown 0 (bearer (Some token)) 1 (pool ++ tr0))
    as (new & Hrun & Hp & Hs); [lia|].
  rewrite Hrun. exists (new ++ pool ++ [GetToken (Returns (Some token))]).
  simpl. rewrite !posts_app, !sleeps_app, Hp, Hpp, Hps, Hs, <- !app_assoc.
  simpl. rewrite app_nil_r, rev_involutive, Nat.sub_0_r.
  repeat split; simpl; try reflexivity; unfold posts; simpl; lia.
Qed.

End SenderFacts.

(** ** The client pool and the base URL *)

Lemma pooled_step (op : ViolationSender.pool_op)
    (st : ViolationSender.sender * list ViolationSender.call) :
  ViolationSender.pooled st ->
  ViolationSender.pooled (ViolationSender.pool_step op st).
Proof.
  destruct st as [[b m t [[id closed]|]] tr]; unfold ViolationSender.pooled;
    destruct op; simpl; unfold ViolationSender._get_client, ViolationSender.close;
    simpl; intros H; try (destruct H as (-> & Hn & Hc)); simpl;
    repeat split; auto; lia.
Qed.

(** X18. The client pool holds at most one client and never a closed one:
    after any sequence of [_get_client] and [close] on a new sender, either
    there is no client and as many clients have been closed as created, or
    there is one, open, the last one created, and all the earlier ones are
    closed.  Asking for the client twice gives the same client without
    creating one, and closing twice closes once. *)
Theorem client_pool_holds_one_client (ops : list ViolationSender.pool_op)
    (api_url environ : option string) (max_retries timeout : Z) :
  ViolationSender.pooled
    (ViolationSender.pool_run ops
       (ViolationSender.init api_url environ max_retries timeout, [])) /\
  (forall st,
     ViolationSender.pool_step ViolationSender.GetClient
       (ViolationSender.pool_step ViolationSender.GetClient st)
     = ViolationSender.pool_step ViolationSender.GetClient st) /\
  (forall st,
     ViolationSender.pool_step ViolationSender.Close
       (ViolationSender.pool_step ViolationSender.Close st)
     = ViolationSender.pool_step ViolationSender.Close st).
Proof.
  split; [|split].
  - assert (H : forall st, ViolationSender.pooled st ->
                           ViolationSender.pooled (ViolationSender.pool_run ops st)).
    { induction ops as [|op ops IH]; intros st Hst; [exact Hst|].
      apply IH. now apply pooled_step. }
    apply H. reflexivity.
  - intros [[b m t [[id closed]|]] tr]; simpl;
      unfold ViolationSender._get_client; simpl;
      try destruct closed; reflexivity.
  - intros [[b m t [[id closed]|]] tr]; simpl;
      unfold ViolationSender.close; simpl;
      try destruct closed; reflexivity.
Qed.

Lemma rstrip_slash_decompose (s : string) :
  exists k, s = (ViolationSender.rstrip_slash s ++ ViolationSender.slashes k)%string.
Proof.
  induction s as [|c rest [k IH]]; [now exists 0%nat|]. simpl.
  destruct (ViolationSender.rstrip_slash rest) as [|c' r'] eqn:E.
  - destruct (Ascii.eqb_spec c ViolationSender.slash) as [->|Hne];
      [exists (S k) | exists k]; rewrite IH at 1; reflexivity.
  - exists k. rewrite IH at 1. reflexivity.
Qed.

Lemma rstrip_slash_no_trailing (s p : string) :
  ViolationSender.rstrip_slash s
  <> (p ++ String ViolationSender.slash EmptyString)%string.
Proof.
  revert p. induction s as [|c rest IH]; intros p; simpl.
  - destruct p; discriminate.
  - destruct (ViolationSender.rstrip_slash rest) as [|c' r'] eqn:E.
    + destruct (Ascii.eqb_spec c ViolationSender.slash) as [->|Hne].
      * destruct p; discriminate.
      * destruct p as [|c0 [|c1 p]]; simpl; intros H; inversion H; congruence.
    + destruct p as [|c0 p]; intros H; inversion H as [[Hc Hr]].
      exact (IH p Hr).
Qed.

(** X19. The base URL of a sender is the configured URL without its
    trailing slashes: it never ends with a slash, and the configured URL
    (the argument, else the environment variable, else the default) is the
    base URL followed by slashes only. *)
Theorem base_url_has_no_trailing_slash (api_url environ : option string)
    (max_retries timeout : Z) :
  let s := ViolationSender.init api_url environ max_retries timeout in
  let configured :=
    match api_url, environ with
    | Some url, _ => url
    | None, Some url => url
    | None, None => "http://127.0.0.1:8002"%string
    end in
  (forall p, ViolationSender.base_url s
             <> (p ++ String ViolationSender.slash EmptyString)%string) /\
  exists k, configured
            = (ViolationSender.base_url s ++ ViolationSender.slashes k)%string.
Proof.
  simpl. split.
  - intros p. apply rstrip_slash_no_trailing.
  - destruct api_url as [url|]; [|destruct environ as [url|]];
      apply rstrip_slash_decompose.
Qed.

(** ** The theorems at work *)

Lemma flag_records_a_delivery_witness :
  let g := run Scenario.one_frame 10 (create "rtsp://cam" 15) in
  successfully_captured (self (mach g)) = true /\
  (0 < deliveries Primary (trace (mach g)) + deliveries Fallback (trace (mach g)))%nat.
Proof.
  intros g.
  assert (H : successfully_captured (self (mach g)) = true)
    by (vm_compute; reflexivity).
  split; [exact H|].
  apply (proj1 (flag_records_a_delivery Scenario.one_frame "rtsp://cam" 15 10)).
  exact H.
Defined.

Lemma loop_head_never_reinitialises_witness :
  let g := run Scenario.one_frame 5 (create "rtsp://cam" 15) in
  cap (self (mach g)) <> None.
Proof.
  intros g.
  destruct (loop_head_never_reinitialises Scenario.one_frame "rtsp://cam" 15 5)
    as [_ H].
  apply (H {| last_process_time := 1000000; fail_count := 0 |}).
  vm_compute. reflexivity.
Defined.

Lemma send_violation_requests_authorised_witness :
  let sent :=
    ViolationSender.send_violation Z (fun _ => "2024-05-01T12:00:00"%string)
      ViolationSender.expired_token
      (ViolationSender.init (Some "http://api/"%string) None 3 10) []
      "site A" "cam 1" [] (Some 0) (Some "[]"%string) None (Some ""%string) None in
  fst (fst sent) = ViolationSender.Returned (Some "42"%string) /\
  ViolationSender.posts (snd sent) = 2%nat /\
  ViolationSender.authorised (snd sent).
Proof.
  intros sent. split; [vm_compute; reflexivity|].
  split; [vm_compute; reflexivity|].
  apply (send_violation_requests_authorised Z (fun _ => "2024-05-01T12:00:00"%string)
           ViolationSender.expired_token).
  exact I.
Defined.

Lemma form_data_fields_witness :
  let data :=
    ViolationSender.form_data Z (fun _ => "2024-05-01T12:00:00"%string)
      "site A" "cam 1" None (Some "[]"%string) (Some ""%string) None None in
  data !! "warnings_json"%string = Some "[]"%string /\
  data !! "detections_json"%string = None /\
  data !! "detection_time"%string = None /\
  In "warnings_json"%string
     ["site"; "stream_name"; "detection_time"; "warnings_json";
      "detections_json"; "cone_polygon_json"; "pole_polygon_json"]%string.
Proof.
  intros data.
  destruct (form_data_fields Z (fun _ => "2024-05-01T12:00:00"%string)
              "site A" "cam 1" None (Some "[]"%string) (Some ""%string) None None)
    as (_ & _ & Ht & Hw & Hd & _ & _ & Hkeys).
  split; [exact Hw|]. split; [exact Hd|]. split; [exact Ht|].
  apply Hkeys. exists "[]"%string. exact Hw.
Defined.

Lemma base_url_has_no_trailing_slash_witness :
  ViolationSender.base_url (ViolationSender.init (Some "http://api//"%string) None 3 10)
  = "http://api"%string /\
  ViolationSender.base_url (ViolationSender.init (Some "http://api//"%string) None 3 10)
  <> ("http://api/" ++ String ViolationSender.slash EmptyString)%string.
Proof.
  split; [vm_compute; reflexivity|].
  apply (base_url_has_no_trailing_slash (Some "http://api//"%string) None 3 10).
Defined.

Lemma send_violation_timeouts_exhaust_witness :
  exists new,
    let sent :=
      ViolationSender.send_violation Z (fun _ => "2024-05-01T12:00:00"%string)
        ViolationSender.unreachable
        (ViolationSender.init None None 4 10) []
        "site A" "cam 1" [] None None None None None in
    snd sent = new ++ [] /\
    fst (fst sent) = ViolationSender.RuntimeError ViolationSender.timeout_message /\
    ViolationSender.posts new = 4%nat /\
    rev (ViolationSender.sleeps new) = [1; 2; 4].
Proof.
  apply (send_violation_timeouts_exhaust Z (fun _ => "2024-05-01T12:00:00"%string)
           ViolationSender.unreachable
           (ViolationSender.init None None 4 10) []
           "site A" "cam 1" [] None None None None None "old").
  - intros tr. reflexivity.
  - reflexivity.
  - discriminate.
  - simpl. lia.
Defined.
